(** * gintokos/errors: the CError value, its derivations, chain walk and
    serialisation, embedded from the source of package [errors].

    Modelling conventions
    - A Go [string] is a byte sequence: Rocq's [string] (a list of 8-bit
      [ascii]).
    - [int32] and [uint16] are [Z] with the wrap-around written out.
    - A [[]string] is a slice header (pointer, length, capacity) into a heap
      of backing arrays, so that aliasing between derived values is visible.
    - A [*CError] is modelled by the struct it points to (the pointer is never
      nil and the struct copy [newErr := *e] is a value copy); the backing
      arrays of its two slices live in the heap.
    - The [error] interface is the sum of [*CError] and foreign errors; a nil
      interface value is [None]. Cause chains are inductive, hence finite and
      acyclic. *)

From Stdlib Require Import ZArith Lia Ascii String DecimalString.
From stdpp Require Import base numbers option list gmap strings fin_maps.

Local Open Scope Z_scope.
Set Warnings "-register-all".

(** ** Go runtime: fixed-width integers *)

Definition int32_modulus : Z := 2 ^ 32.
Definition int32_half : Z := 2 ^ 31.

(** Two's-complement wrap-around of a mathematical integer into [int32]. *)
Definition wrap_int32 (z : Z) : Z :=
  (z + int32_half) mod int32_modulus - int32_half.

Definition is_int32 (z : Z) : Prop := - int32_half <= z < int32_half.

(** [uint16(x)] conversion. *)
Definition to_uint16 (z : Z) : Z := z mod 65536.

Definition is_uint16 (z : Z) : Prop := 0 <= z <= 65535.

(** [atomic.AddInt32(&v, delta)]: the new value of the cell, which is also
    the value returned. Atomic read-modify-write operations on one cell are
    linearisable, so concurrent callers are a sequence of these steps. *)
Definition atomic_AddInt32 (v delta : Z) : Z := wrap_int32 (v + delta).

(** ** Go runtime: slices of strings over a heap of backing arrays *)

Definition loc := nat.

(** The slice header. A nil slice has no pointer and zero length and
    capacity. *)
Record slice : Type := Slice { ptr : option loc; len : nat; cap : nat }.

Definition nil_slice : slice := Slice None 0 0.

(** Backing arrays, each stored at its full capacity. *)
Abbreviation heap := (gmap loc (list string)).

Definition backing (h : heap) (s : slice) : list string :=
  match ptr s with
  | Some l => default [] (h !! l)
  | None => []
  end.

(** The elements a slice denotes: [s[0:len(s)]]. *)
Definition elems (h : heap) (s : slice) : list string :=
  take (len s) (backing h s).

(** [make([]string, n, c)]: a fresh zeroed array of capacity [c]. *)
Definition make (h : heap) (n c : nat) : heap * slice :=
  let l := fresh (dom h) in
  (<[l := replicate c EmptyString]> h, Slice (Some l) n c).

(** [copy(dst, src)]: overwrites the first [min(len(dst), len(src))]
    elements of [dst]'s array. *)
Definition copy (h : heap) (dst src : slice) : heap :=
  match ptr dst with
  | Some l =>
      let n := Nat.min (len dst) (len src) in
      <[l := take n (elems h src) ++ drop n (backing h dst)]> h
  | None => h
  end.

(** Capacity chosen by the runtime when [append] must reallocate. The
    runtime doubles small slices and rounds up to an allocation class; only
    [needed <= growslice_cap] matters below. *)
Definition growslice_cap (oldcap needed : nat) : nat :=
  Nat.max needed (2 * oldcap).

(** [append(s, x)]: writes in place into the backing array of [s] when there
    is spare capacity, and reallocates otherwise. *)
Definition append (h : heap) (s : slice) (x : string) : heap * slice :=
  match ptr s with
  | Some l =>
      if decide (len s < cap s)%nat then
        (<[l := <[len s := x]> (backing h s)]> h,
         Slice (Some l) (S (len s)) (cap s))
      else
        let c := growslice_cap (cap s) (S (len s)) in
        let l' := fresh (dom h) in
        (<[l' := elems h s ++ x :: replicate (c - S (len s)) EmptyString]> h,
         Slice (Some l') (S (len s)) c)
  | None =>
      let c := growslice_cap 0 1 in
      let l' := fresh (dom h) in
      (<[l' := x :: replicate (c - 1) EmptyString]> h, Slice (Some l') 1 c)
  end.

(** A slice header is consistent with the heap. *)
Definition slice_ok (h : heap) (s : slice) : Prop :=
  match ptr s with
  | Some l => ∃ a, h !! l = Some a ∧ length a = cap s ∧ (len s <= cap s)%nat
  | None => len s = 0%nat ∧ cap s = 0%nat
  end.

(** Two slices share backing storage. *)
Definition shares_storage (s t : slice) : Prop :=
  ∃ l, ptr s = Some l ∧ ptr t = Some l.

(** ** The error value *)

(** The struct [CError]; [E] is the type of the [error] interface values
    that the [wrapped] field may hold. *)
Record CErrorOf (E : Type) : Type := mkCError {
  wrapped : option E;
  details : slice;
  userdetails : slice;
  msg : string;
  id : Z;
  code : Z
}.

Arguments mkCError {E} _ _ _ _ _ _.
Arguments wrapped {E} _.
Arguments details {E} _.
Arguments userdetails {E} _.
Arguments msg {E} _.
Arguments id {E} _.
Arguments code {E} _.

(** [error] holds the non-nil values of Go's [error] interface: a [*CError],
    or a foreign error with its [Error()] text and, when it has an
    [Unwrap() error] method, what that method returns. *)
Inductive error : Type :=
  | PtrCError (c : CErrorOf error)
  | Foreign (text : string) (unwrap : option (option error)).

Abbreviation CError := (CErrorOf error).

(** The package-level [errorCounter]. *)
Definition errorCounter_init : Z := 0.

Definition New (errorCounter : Z) (code : Z) (msg : string) : Z * CError :=
  let id := atomic_AddInt32 errorCounter 1 in
  (id, mkCError None nil_slice nil_slice msg id code).

Definition Wrap (errorCounter : Z) (err : option error) (code : Z)
    (msg : string) : Z * CError :=
  let id := atomic_AddInt32 errorCounter 1 in
  (id, mkCError err nil_slice nil_slice msg id code).

Definition Code (e : CError) : Z := code e.
Definition Message (c : CError) : string := msg c.
Definition UserDetails (c : CError) : slice := userdetails c.
Definition Details (c : CError) : slice := details c.

(** [Is]: the type assertion of [target] to a CError pointer fails on nil
    and on foreign errors. *)
Definition Is (e : CError) (target : option error) : bool :=
  match target with
  | Some (PtrCError cerr) => bool_decide (id e = id cerr)
  | _ => false
  end.

Definition Unwrap (c : CError) : option error := wrapped c.

(** The loop of [UnwrapAll], entered with a non-nil [current]; [acc] is the
    local [wrapped] slice built so far. *)
Fixpoint UnwrapAll_loop (acc : list error) (current : error) : list error :=
  let acc := acc ++ [current] in
  match current with
  | PtrCError err =>
      match wrapped err with
      | Some next => UnwrapAll_loop acc next
      | None => acc
      end
  | Foreign _ (Some (Some next)) => UnwrapAll_loop acc next
  | Foreign _ (Some None) => acc
  | Foreign _ None => acc
  end.

(** [UnwrapAll]; the nil result is the empty list. *)
Definition UnwrapAll (c : CError) : list error :=
  match wrapped c with
  | None => []
  | Some current => UnwrapAll_loop [] current
  end.

Definition WithCode (e : CError) (code : Z) : CError :=
  let newErr := e in
  mkCError (wrapped newErr) (details newErr) (userdetails newErr)
           (msg newErr) (id newErr) code.

Definition WithMessage (e : CError) (msg' : string) : CError :=
  let newErr := e in
  mkCError (wrapped newErr) (details newErr) (userdetails newErr)
           msg' (id newErr) (code newErr).

Definition WithWrap (e : CError) (err : option error) : CError :=
  let newErr := e in
  mkCError err (details newErr) (userdetails newErr)
           (msg newErr) (id newErr) (code newErr).

Definition WithDetail (h : heap) (e : CError) (detail : string)
    : heap * CError :=
  let newErr := e in
  let '(h1, d) := make h (len (details e)) (len (details e) + 1) in
  let h2 := copy h1 d (details e) in
  let '(h3, d') := append h2 d detail in
  (h3, mkCError (wrapped newErr) d' (userdetails newErr)
                (msg newErr) (id newErr) (code newErr)).

Definition WithUserDetail (h : heap) (e : CError) (detail : string)
    : heap * CError :=
  let newErr := e in
  let '(h1, d) := make h (len (userdetails e)) (len (userdetails e) + 1) in
  let h2 := copy h1 d (userdetails e) in
  let '(h3, d') := append h2 d detail in
  (h3, mkCError (wrapped newErr) (details newErr) d'
                (msg newErr) (id newErr) (code newErr)).

Definition UserMessage (e : CError) : string :=
  if decide (msg e ≠ EmptyString) then msg e else "unknown error occurred"%string.

(** [IsCode(code int)]. *)
Definition IsCode (e : CError) (code' : Z) : bool :=
  if bool_decide (code' < 0) || bool_decide (code' > 65535) then false
  else bool_decide (code e = to_uint16 code').

(** [As]: the target is either a holder of type pointer-to-CError-pointer,
    which receives [e], or anything else, which is left alone. The second
    component is what the holder receives. *)
Inductive as_target : Type := CErrorHolder | OtherTarget.

Definition As (e : CError) (target : as_target) : bool * option CError :=
  match target with
  | CErrorHolder => (true, Some e)
  | OtherTarget => (false, None)
  end.

(** *** Matching when the target holds a nil pointer

    [Is] and [As] over every target Go can pass them. An interface value
    that holds a CError pointer is not nil even when the pointer is; the
    type assertion then succeeds and the method body dereferences the
    pointer. *)

(** What a call does: it returns, or it stops on a nil pointer dereference. *)
Inductive outcome (A : Type) : Type :=
  | Returns (a : A)
  | NilDereference.

Arguments Returns {A} _.
Arguments NilDereference {A}.

(** The targets of [Is]: the nil interface, a CError pointer (nil or not),
    a foreign error. *)
Inductive Is_target : Type :=
  | IsNil
  | IsCErrorPtr (cerr : option CError)
  | IsForeign (text : string) (unwrap : option (option error)).

Definition Is_at (e : CError) (target : Is_target) : outcome bool :=
  match target with
  | IsCErrorPtr (Some cerr) => Returns (bool_decide (id e = id cerr))
  | IsCErrorPtr None => NilDereference
  | IsNil | IsForeign _ _ => Returns false
  end.

(** The targets that [Is] above takes, among these. *)
Definition Is_target_of (target : option error) : Is_target :=
  match target with
  | None => IsNil
  | Some (PtrCError c) => IsCErrorPtr (Some c)
  | Some (Foreign text unwrap) => IsForeign text unwrap
  end.

(** The targets of [As]: the nil interface, a pointer to a CError pointer
    variable (nil, or the variable with what it holds), anything else. *)
Inductive As_holder : Type :=
  | AsNil
  | AsCErrorHolder (cerr : option (option CError))
  | AsOther.

(** The second component is what the variable holds afterwards, when it is
    assigned. *)
Definition As_at (e : CError) (target : As_holder)
    : outcome (bool * option CError) :=
  match target with
  | AsCErrorHolder (Some _) => Returns (true, Some e)
  | AsCErrorHolder None => NilDereference
  | AsNil | AsOther => Returns (false, None)
  end.

(** The holders that [As] above takes, among these. *)
Definition As_holder_of (target : as_target) : As_holder :=
  match target with
  | CErrorHolder => AsCErrorHolder (Some None)
  | OtherTarget => AsOther
  end.

(** ** Go library: unicode/utf8 *)

Local Open Scope char_scope.

Definition byte_between (lo hi : N) (c : ascii) : bool :=
  ((lo <=? N_of_ascii c) && (N_of_ascii c <=? hi))%N.

(** The table [first] of package utf8 together with [acceptRanges]: what a
    leading byte announces. [Lead sz lo hi] is a leading byte of a [sz]-byte
    encoding whose second byte must lie in [lo..hi]. *)
Inductive first_byte : Type :=
  | FirstASCII
  | FirstInvalid
  | Lead (sz : nat) (lo hi : N).

Definition first (c : ascii) : first_byte :=
  let b := N_of_ascii c in
  if (b <? 128)%N then FirstASCII
  else if (b <? 194)%N then FirstInvalid
  else if (b <? 224)%N then Lead 2 128 191
  else if (b =? 224)%N then Lead 3 160 191
  else if (b =? 237)%N then Lead 3 128 159
  else if (b <? 240)%N then Lead 3 128 191
  else if (b =? 240)%N then Lead 4 144 191
  else if (b <? 244)%N then Lead 4 128 191
  else if (b =? 244)%N then Lead 4 128 143
  else FirstInvalid.

Definition continuation (c : ascii) : bool := byte_between 128 191 c.

(** [utf8.DecodeRuneInString], reduced to what its callers below use: the
    width of the encoding at the head of [s], or [None] where the function
    returns [(RuneError, 1)] (or [s] is empty). *)
Definition DecodeRuneInString (s : string) : option nat :=
  match s with
  | EmptyString => None
  | String s0 t =>
      match first s0 with
      | FirstASCII => Some 1%nat
      | FirstInvalid => None
      | Lead sz lo hi =>
          match t with
          | String s1 t1 =>
              if negb (byte_between lo hi s1) then None
              else if (sz <=? 2)%nat then Some 2%nat
              else
                match t1 with
                | String s2 t2 =>
                    if negb (continuation s2) then None
                    else if (sz <=? 3)%nat then Some 3%nat
                    else
                      match t2 with
                      | String s3 _ =>
                          if negb (continuation s3) then None else Some 4%nat
                      | EmptyString => None
                      end
                | EmptyString => None
                end
          | EmptyString => None
          end
      end
  end.

(** U+FFFD, the replacement rune, in UTF-8. *)
Definition RuneError : string :=
  String "239" (String "191" (String "189" EmptyString)).

(** The scan shared by [utf8.ValidString] and by the string encoder: the
    text is read rune by rune; [pending] counts the bytes that remain of a
    rune already decoded at its first byte. *)
Fixpoint ValidString_from (pending : nat) (s : string) : bool :=
  match s with
  | EmptyString => true
  | String c t =>
      match pending with
      | S k => ValidString_from k t
      | O =>
          match DecodeRuneInString s with
          | Some size => ValidString_from (size - 1) t
          | None => false
          end
      end
  end.

(** [utf8.ValidString]. *)
Definition ValidString (s : string) : bool := ValidString_from 0 s.

(** ** Go library: encoding/json *)

(** A number literal: an integer literal (optional minus sign, digits
    without leading zero), or a literal with a fraction or an exponent. *)
Inductive number : Type :=
  | IntLit (minus : bool) (n : N)
  | FloatLit (lit : string).

(** JSON values. [JString s] carries the text the literal denotes, escapes
    resolved, as UTF-8 bytes; the members of an object are kept in order,
    duplicates included. *)
Inductive json : Type :=
  | JNull
  | JBool (b : bool)
  | JNumber (n : number)
  | JString (s : string)
  | JArray (l : list json)
  | JObject (members : list (string * json)).

(** What the scanner of encoding/json makes of a byte slice: a syntax error,
    or the JSON value the bytes spell. [json.Marshal] returns the bytes of a
    value, [json.Unmarshal] starts from them. *)
Inductive bytes : Type :=
  | NotJSON
  | JSONText (j : json).

Inductive decode_error : Type :=
  | SyntaxError
  | UnmarshalTypeError.

(** The text denoted by the literal the encoder writes for a Go string. The
    package documents it: string values encode as JSON strings coerced to
    valid UTF-8, replacing invalid bytes with the Unicode replacement rune.
    Valid runes are kept (escaped or not); every byte at which
    [DecodeRuneInString] reports an error becomes U+FFFD. *)
Fixpoint encoded_string_from (pending : nat) (s : string) : string :=
  match s with
  | EmptyString => EmptyString
  | String c t =>
      match pending with
      | S k => String c (encoded_string_from k t)
      | O =>
          match DecodeRuneInString s with
          | Some size => String c (encoded_string_from (size - 1) t)
          | None => (RuneError ++ encoded_string_from 0 t)%string
          end
      end
  end.

Definition encoded_string (s : string) : string := encoded_string_from 0 s.

Local Close Scope char_scope.

(** The local struct type [errorJSON] of [MarshalJSON] and [UnmarshalJSON],
    as a Go value: [Details] is [None] for a nil slice and the elements
    otherwise. *)
Module errorJSON.

Record t : Type := mk {
  Message : string;
  Code : Z;
  Details : option (list string)
}.

Definition zero : t := mk EmptyString 0 None.

End errorJSON.

(** Reading a slice out of the heap as a Go value, and storing one. *)
Definition load_slice (h : heap) (s : slice) : option (list string) :=
  match ptr s with
  | Some _ => Some (elems h s)
  | None => None
  end.

Definition store_slice (h : heap) (v : option (list string)) : heap * slice :=
  match v with
  | Some l =>
      let p := fresh (dom h) in
      (<[p := l]> h, Slice (Some p) (length l) (length l))
  | None => (h, nil_slice)
  end.

(** [json.Marshal] at type [errorJSON]: three tagged fields, the last with
    [omitempty]. It has no failing case at this type. *)
Definition json_Marshal (data : errorJSON.t) : json :=
  JObject
    ([("message"%string, JString (encoded_string (errorJSON.Message data)));
      ("code"%string, JNumber (IntLit false (Z.to_N (errorJSON.Code data))))]
     ++ match errorJSON.Details data with
        | Some (d :: ds) =>
            [("details"%string,
              JArray (JString ∘ encoded_string <$> (d :: ds)))]
        | _ => []
        end).

(** Case folding of member names. The decoder folds every rune to the least
    member of its simple-folding orbit. The field names below are ASCII, and
    the only orbits holding an ASCII letter are the pairs of a letter with
    its capital, extended by U+017F for S and U+212A for K; runes outside
    those orbits never fold to ASCII and are left as they are here. *)
Local Open Scope char_scope.

Definition upper (c : ascii) : ascii :=
  if byte_between 97 122 c then ascii_of_N (N_of_ascii c - 32) else c.

Fixpoint foldName (s : string) : string :=
  match s with
  | EmptyString => EmptyString
  | String c t =>
      match c, t with
      | "197", String "191" t' => String "S" (foldName t')
      | "226", String "132" (String "170" t') => String "K" (foldName t')
      | _, _ => String (upper c) (foldName t)
      end
  end.

Local Close Scope char_scope.

Inductive field : Type := FieldMessage | FieldCode | FieldDetails.

#[global] Instance field_eq_dec : EqDecision field.
Proof. solve_decision. Defined.

(** Field lookup for a member name: an exact match of the tag first, then a
    match of the folded names. *)
Definition field_of_key (key : string) : option field :=
  if decide (key = "message"%string) then Some FieldMessage
  else if decide (key = "code"%string) then Some FieldCode
  else if decide (key = "details"%string) then Some FieldDetails
  else if decide (foldName key = foldName "message") then Some FieldMessage
  else if decide (foldName key = foldName "code") then Some FieldCode
  else if decide (foldName key = foldName "details") then Some FieldDetails
  else None.

(** Decoding one JSON value into a Go [string]. The package documents that
    unmarshaling a JSON null into a type that has no nil has no effect on
    the value and produces no error. [None] is a type mismatch. *)
Definition decode_string (old : string) (v : json) : option string :=
  match v with
  | JString s => Some s
  | JNull => Some old
  | _ => None
  end.

(** Into a [uint16]: the literal must parse as an unsigned integer that
    fits 16 bits. *)
Definition decode_uint16 (old : Z) (v : json) : option Z :=
  match v with
  | JNumber (IntLit false n) =>
      if decide (n <= 65535)%N then Some (Z.of_N n) else None
  | JNull => Some old
  | _ => None
  end.

(** Into a [[]string]: null sets the slice to nil; an array is decoded
    element by element into the zeroed strings of a newly grown slice, so a
    null element stays empty. (When a record names [details] more than once
    the decoder reuses the array of the earlier member, and a null element
    then keeps what that array holds; nothing below depends on the value of
    such an element.) *)
Definition decode_strings (v : json) : option (option (list string)) :=
  match v with
  | JArray l => Some <$> mapM (decode_string EmptyString) l
  | JNull => Some None
  | _ => None
  end.

(** One member of the object assigned to the struct. Members that match no
    field are skipped. *)
Definition decode_member (tmp : errorJSON.t) (kv : string * json)
    : option errorJSON.t :=
  match field_of_key kv.1 with
  | Some FieldMessage =>
      m ← decode_string (errorJSON.Message tmp) kv.2;
      Some (errorJSON.mk m (errorJSON.Code tmp) (errorJSON.Details tmp))
  | Some FieldCode =>
      c ← decode_uint16 (errorJSON.Code tmp) kv.2;
      Some (errorJSON.mk (errorJSON.Message tmp) c (errorJSON.Details tmp))
  | Some FieldDetails =>
      d ← decode_strings kv.2;
      Some (errorJSON.mk (errorJSON.Message tmp) (errorJSON.Code tmp) d)
  | None => Some tmp
  end.

(** The members in order. The decoder keeps the first type mismatch and
    goes on reading; its caller below drops the struct on any error, so
    the scan may as well stop there. *)
Fixpoint decode_members (tmp : errorJSON.t) (members : list (string * json))
    : option errorJSON.t :=
  match members with
  | [] => Some tmp
  | kv :: rest => tmp' ← decode_member tmp kv; decode_members tmp' rest
  end.

(** [json.Unmarshal(data, &tmp)] at type [errorJSON]. *)
Definition json_Unmarshal (data : bytes) (tmp : errorJSON.t)
    : decode_error + errorJSON.t :=
  match data with
  | NotJSON => inl SyntaxError
  | JSONText JNull => inr tmp
  | JSONText (JObject members) =>
      match decode_members tmp members with
      | Some tmp' => inr tmp'
      | None => inl UnmarshalTypeError
      end
  | JSONText _ => inl UnmarshalTypeError
  end.

(** ** Serialisation of the error value *)

(** [MarshalJSON]; the [error] result of the source is always nil. *)
Definition MarshalJSON (h : heap) (e : CError) : bytes :=
  let data := errorJSON.mk (msg e) (code e) (load_slice h (userdetails e)) in
  JSONText (json_Marshal data).

(** [UnmarshalJSON]: on success the receiver is returned with three fields
    assigned, the decoded slice being placed in the heap. *)
Definition UnmarshalJSON (h : heap) (e : CError) (data : bytes)
    : heap * (decode_error + CError) :=
  let tmp := errorJSON.zero in
  match json_Unmarshal data tmp with
  | inl err => (h, inl err)
  | inr tmp =>
      let '(h', ud) := store_slice h (errorJSON.Details tmp) in
      (h', inr (mkCError (wrapped e) (details e) ud
                         (errorJSON.Message tmp) (id e) (errorJSON.Code tmp)))
  end.

(** ** Full diagnostic data *)

(** The dynamic values stored in the per-link maps, and in the map returned
    by [FullData], which may also hold the chain of per-link maps. A slice
    is stored as its header: the map shares the error's backing array. *)
Inductive link_value : Type :=
  | VString (s : string)
  | VUint16 (c : Z)
  | VStrings (s : slice).

Inductive data_value : Type :=
  | Plain (v : link_value)
  | Chain (links : list (gmap string link_value)).

(** The loop of [expandAllWrapped], entered with a non-nil [current]. *)
Fixpoint expandAllWrapped_loop (chain : list (gmap string link_value))
    (current : error) : list (gmap string link_value) :=
  match current with
  | PtrCError cerr =>
      let wrappedData : gmap string link_value := ∅ in
      let wrappedData := <["message"%string := VString (msg cerr)]> wrappedData in
      let wrappedData := <["code"%string := VUint16 (code cerr)]> wrappedData in
      let wrappedData :=
        if decide (0 < len (details cerr))%nat
        then <["details"%string := VStrings (details cerr)]> wrappedData
        else wrappedData in
      let wrappedData :=
        if decide (0 < len (userdetails cerr))%nat
        then <["user_details"%string := VStrings (userdetails cerr)]> wrappedData
        else wrappedData in
      let chain := chain ++ [wrappedData] in
      match wrapped cerr with
      | Some next => expandAllWrapped_loop chain next
      | None => chain
      end
  | Foreign text unwrapper =>
      let wrappedData : gmap string link_value := ∅ in
      let wrappedData := <["message"%string := VString text]> wrappedData in
      let chain := chain ++ [wrappedData] in
      match unwrapper with
      | Some (Some next) => expandAllWrapped_loop chain next
      | Some None => chain
      | None => chain
      end
  end.

Definition expandAllWrapped (e : CError) (err : option error)
    : list (gmap string link_value) :=
  match err with
  | Some current => expandAllWrapped_loop [] current
  | None => []
  end.

Definition FullData (e : CError) : gmap string data_value :=
  let data : gmap string data_value :=
    <["code"%string := Plain (VUint16 (code e))]>
      (<["message"%string := Plain (VString (msg e))]> ∅) in
  let data :=
    if decide (0 < len (details e))%nat
    then <["details"%string := Plain (VStrings (details e))]> data
    else data in
  let data :=
    if decide (0 < len (userdetails e))%nat
    then <["user_details"%string := Plain (VStrings (userdetails e))]> data
    else data in
  match wrapped e with
  | Some _ =>
      let wrappedChain := expandAllWrapped e (wrapped e) in
      if decide (0 < length wrappedChain)%nat
      then <["wrapped"%string := Chain wrappedChain]> data
      else data
  | None => data
  end.

(** ** Specification-side notions *)

(** The zero value of the struct, the usual target of deserialisation. *)
Definition CError_zero : CError := mkCError None nil_slice nil_slice EmptyString 0 0.

(** Both slices of an error value are consistent with the heap. *)
Definition CError_ok (h : heap) (e : CError) : Prop :=
  slice_ok h (details e) ∧ slice_ok h (userdetails e).

(** The walk over a cause chain, one rule per case of the description:
    a CError link is recorded and the walk goes on with its own cause; a
    foreign link is recorded and the walk goes on through its [Unwrap]
    accessor when it has one, and ends there when it has none; the walk ends
    at a nil error. *)
Inductive chain_walk : option error → list error → Prop :=
  | walk_nil : chain_walk None []
  | walk_cerror c l :
      chain_walk (wrapped c) l →
      chain_walk (Some (PtrCError c)) (PtrCError c :: l)
  | walk_unwrap text next l :
      chain_walk next l →
      chain_walk (Some (Foreign text (Some next)))
                 (Foreign text (Some next) :: l)
  | walk_stop text :
      chain_walk (Some (Foreign text None)) [Foreign text None].

(** The same chain as a function: the link itself, then the links after it. *)
Fixpoint cause_chain (link : error) : list error :=
  link ::
  match link with
  | PtrCError c =>
      match wrapped c with Some next => cause_chain next | None => [] end
  | Foreign _ (Some (Some next)) => cause_chain next
  | Foreign _ _ => []
  end.

(** What one link of the chain contributes to the diagnostic record. *)
Definition link_fields (link : error) : list (string * link_value) :=
  match link with
  | PtrCError c =>
      [("message"%string, VString (msg c)); ("code"%string, VUint16 (code c))]
      ++ (if decide (len (details c) = 0)%nat then []
          else [("details"%string, VStrings (details c))])
      ++ (if decide (len (userdetails c) = 0)%nat then []
          else [("user_details"%string, VStrings (userdetails c))])
  | Foreign text _ => [("message"%string, VString text)]
  end.

(** The fields of the diagnostic record of an error value. *)
Definition diagnostic_fields (e : CError) : list (string * data_value) :=
  [("message"%string, Plain (VString (msg e)));
   ("code"%string, Plain (VUint16 (code e)))]
  ++ (if decide (len (details e) = 0)%nat then []
      else [("details"%string, Plain (VStrings (details e)))])
  ++ (if decide (len (userdetails e) = 0)%nat then []
      else [("user_details"%string, Plain (VStrings (userdetails e)))])
  ++ match wrapped e with
     | Some cause =>
         [("wrapped"%string,
           Chain ((λ link, list_to_map (link_fields link)) <$> cause_chain cause))]
     | None => []
     end.

(** A process as the sequence of its construction calls, in the order in
    which their atomic increments take effect. *)
Inductive construction : Type :=
  | CallNew (code : Z) (msg : string)
  | CallWrap (err : option error) (code : Z) (msg : string).

Definition construct (errorCounter : Z) (call : construction) : Z * CError :=
  match call with
  | CallNew code msg => New errorCounter code msg
  | CallWrap err code msg => Wrap errorCounter err code msg
  end.

(** The values returned by the calls, in order, from a given counter. *)
Fixpoint constructed (errorCounter : Z) (calls : list construction)
    : list CError :=
  match calls with
  | [] => []
  | call :: rest =>
      let '(errorCounter', e) := construct errorCounter call in
      e :: constructed errorCounter' rest
  end.

(** A record of the wire shape with given contents: members named
    [message], [code] and [details] holding a string, an integer and an
    array of strings, the first two present, [details] present at least
    when there are details; members may come in any order. *)
Definition record_of (m : string) (c : N) (ds : list string)
    (members : list (string * json)) : Prop :=
  (∀ kv, kv ∈ members →
     kv = ("message"%string, JString m)
     ∨ kv = ("code"%string, JNumber (IntLit false c))
     ∨ kv = ("details"%string, JArray (JString <$> ds)))
  ∧ ("message"%string, JString m) ∈ members
  ∧ ("code"%string, JNumber (IntLit false c)) ∈ members
  ∧ (ds ≠ [] → ("details"%string, JArray (JString <$> ds)) ∈ members).

(** A JSON value has the type of a field of the wire shape. *)
Definition has_type (f : field) (v : json) : Prop :=
  match f with
  | FieldMessage => ∃ s, v = JString s
  | FieldCode => ∃ n, v = JNumber (IntLit false n) ∧ (n <= 65535)%N
  | FieldDetails => ∃ l, v = JArray l ∧ Forall (λ x, ∃ s, x = JString s) l
  end.

(** Input that is well-formed for the three-field shape: a JSON object in
    which every member naming one of the three fields holds a value of that
    field's type. No member is required, unknown members are allowed. *)
Definition three_field_shape (data : bytes) : Prop :=
  ∃ members,
    data = JSONText (JObject members)
    ∧ ∀ k v f, (k, v) ∈ members → field_of_key k = Some f → has_type f v.

(** The same with JSON null admitted wherever a value is expected: for the
    whole record, for a field, and for an element of [details]. *)
Definition fits (f : field) (v : json) : Prop :=
  v = JNull
  ∨ match f with
    | FieldMessage => ∃ s, v = JString s
    | FieldCode => ∃ n, v = JNumber (IntLit false n) ∧ (n <= 65535)%N
    | FieldDetails =>
        ∃ l, v = JArray l ∧ Forall (λ x, x = JNull ∨ ∃ s, x = JString s) l
    end.

Definition accepted (data : bytes) : Prop :=
  data = JSONText JNull
  ∨ ∃ members,
      data = JSONText (JObject members)
      ∧ ∀ k v f, (k, v) ∈ members → field_of_key k = Some f → fits f v.

(** ** Text rendering *)

(** [fmt.Sprintf] with the verb [%d] at an unsigned integer: its decimal
    digits, without sign or leading zeros. *)
Definition format_uint (z : Z) : string :=
  NilZero.string_of_uint (N.to_uint (Z.to_N z)).

(** The range loop of [Error] over the details, from index [i]; [errstr] is
    the content of the string builder. *)
Fixpoint Error_details_loop (errstr : string) (i : nat) (ds : list string)
    : string :=
  match ds with
  | [] => errstr
  | detail :: rest =>
      let errstr := if decide (0 < i)%nat then (errstr ++ ", ")%string
                    else errstr in
      let errstr := (errstr ++ detail)%string in
      Error_details_loop errstr (S i) rest
  end.

(** The body of [Error], given the text [e.wrapped.Error()] of the cause
    when there is one. *)
Definition Error_body (h : heap) (e : CError) (wrapped_Error : option string)
    : string :=
  let errstr := EmptyString in
  let errstr :=
    (errstr ++ ("message: " ++ msg e ++ ", code: " ++ format_uint (code e)))%string in
  let errstr :=
    match ptr (details e) with
    | Some _ =>
        let errstr := (errstr ++ ", details: [")%string in
        let errstr := Error_details_loop errstr 0 (elems h (details e)) in
        (errstr ++ "]")%string
    | None => errstr
    end in
  match wrapped_Error with
  | Some text => (errstr ++ (", wrapped: " ++ text))%string
  | None => errstr
  end.

(** The method [Error] of the interface: a CError renders itself, its cause
    included; a foreign error gives its text. *)
Fixpoint error_Error (h : heap) (err : error) : string :=
  match err with
  | PtrCError e =>
      Error_body h e
        match wrapped e with
        | Some cause => Some (error_Error h cause)
        | None => None
        end
  | Foreign text _ => text
  end.

Definition Error (h : heap) (e : CError) : string :=
  Error_body h e (error_Error h <$> wrapped e).

(** What one CError contributes to the rendering on its own. *)
Definition own_text (h : heap) (e : CError) : string :=
  ("message: " ++ msg e ++ ", code: " ++ format_uint (code e)
   ++ match ptr (details e) with
      | Some _ => ", details: [" ++ String.concat ", " (elems h (details e)) ++ "]"
      | None => ""
      end)%string.

(** The texts met along a cause chain by [Error]: the own text of each
    CError link; the chain is followed up to its end or to the first foreign
    link, whose text closes the list. *)
Fixpoint rendered_chain (h : heap) (link : error) : list string :=
  match link with
  | PtrCError e =>
      own_text h e ::
      match wrapped e with
      | Some next => rendered_chain h next
      | None => []
      end
  | Foreign text _ => [text]
  end.

(** The technical details of a CError and of the CError causes that [Error]
    renders after it are consistent with the heap. *)
Fixpoint rendering_ok (h : heap) (err : error) : Prop :=
  match err with
  | PtrCError e =>
      slice_ok h (details e)
      ∧ match wrapped e with
        | Some cause => rendering_ok h cause
        | None => True
        end
  | Foreign _ _ => True
  end.

(** The details slice is nil or holds at least one element. *)
Definition nil_or_nonempty (s : slice) : Prop :=
  ptr s = None ↔ len s = 0%nat.

(** ** Chains of derivations *)

(** One call of the fluent interface. *)
Inductive derivation : Type :=
  | CallWithCode (code : Z)
  | CallWithMessage (msg : string)
  | CallWithWrap (err : option error)
  | CallWithDetail (detail : string)
  | CallWithUserDetail (detail : string).

Definition derive (h : heap) (e : CError) (call : derivation)
    : heap * CError :=
  match call with
  | CallWithCode c => (h, WithCode e c)
  | CallWithMessage m => (h, WithMessage e m)
  | CallWithWrap w => (h, WithWrap e w)
  | CallWithDetail d => WithDetail h e d
  | CallWithUserDetail d => WithUserDetail h e d
  end.

(** [e.With...(a1).With...(a2)...]: the calls applied from left to right. *)
Fixpoint derive_all (h : heap) (e : CError) (calls : list derivation)
    : heap * CError :=
  match calls with
  | [] => (h, e)
  | call :: rest =>
      let '(h', e') := derive h e call in
      derive_all h' e' rest
  end.

(** The arguments of the calls of each kind, in call order. *)
Definition code_arg (call : derivation) : option Z :=
  match call with CallWithCode c => Some c | _ => None end.
Definition message_arg (call : derivation) : option string :=
  match call with CallWithMessage m => Some m | _ => None end.
Definition wrap_arg (call : derivation) : option (option error) :=
  match call with CallWithWrap w => Some w | _ => None end.
Definition detail_arg (call : derivation) : option string :=
  match call with CallWithDetail d => Some d | _ => None end.
Definition user_detail_arg (call : derivation) : option string :=
  match call with CallWithUserDetail d => Some d | _ => None end.

(** Calls that touch only what is kept out of the JSON form. *)
Definition technical (call : derivation) : Prop :=
  match call with
  | CallWithDetail _ | CallWithWrap _ => True
  | _ => False
  end.

(** No member of the record names the field (or the text is [null]). *)
Definition absent (f : field) (data : bytes) : Prop :=
  match data with
  | JSONText (JObject members) =>
      ∀ kv, kv ∈ members → field_of_key kv.1 ≠ Some f
  | _ => True
  end.

(** ** The predefined errors *)

(** The package-level variables of the catalog, in declaration order, each
    with the arguments of its [New] call. *)
Definition predefined : list (string * (Z * string)) :=
  [("ErrValidationRequired", (400, "field is required"));
   ("ErrValidationInvalid", (400, "field value is invalid"));
   ("ErrValidationFormat", (400, "field format is invalid"));
   ("ErrValidationLength", (400, "field length is invalid"));
   ("ErrValidationRange", (400, "field value out of range"));
   ("ErrValidationEmail", (400, "invalid email format"));
   ("ErrValidationPhone", (400, "invalid phone format"));
   ("ErrValidationURL", (400, "invalid url format"));
   ("ErrValidationPassword", (400, "password does not meet requirements"));
   ("ErrValidationConfirm", (400, "confirmation does not match"));
   ("ErrAuthRequired", (401, "authentication required"));
   ("ErrAuthInvalid", (401, "invalid credentials"));
   ("ErrAuthExpired", (401, "authentication expired"));
   ("ErrAuthTokenInvalid", (401, "invalid token"));
   ("ErrAuthTokenExpired", (401, "token expired"));
   ("ErrAuthPermissions", (403, "insufficient permissions"));
   ("ErrAuthBlocked", (403, "account blocked"));
   ("ErrAuthSuspended", (403, "account suspended"));
   ("ErrNotFound", (404, "resource not found"));
   ("ErrUserNotFound", (404, "user not found"));
   ("ErrFileNotFound", (404, "file not found"));
   ("ErrPageNotFound", (404, "page not found"));
   ("ErrRecordNotFound", (404, "record not found"));
   ("ErrEndpointNotFound", (404, "endpoint not found"));
   ("ErrConflict", (409, "resource conflict"));
   ("ErrAlreadyExists", (409, "resource already exists"));
   ("ErrUserExists", (409, "user already exists"));
   ("ErrEmailTaken", (409, "email already taken"));
   ("ErrDuplicateEntry", (409, "duplicate entry"));
   ("ErrVersionConflict", (409, "version conflict"));
   ("ErrUnprocessableEntity", (422, "unprocessable entity"));
   ("ErrBusinessRule", (422, "business rule violation"));
   ("ErrInsufficientFunds", (422, "insufficient funds"));
   ("ErrOperationNotAllowed", (422, "operation not allowed"));
   ("ErrLimitExceeded", (422, "limit exceeded"));
   ("ErrExpiredResource", (422, "resource expired"));
   ("ErrWorkflowError", (422, "workflow error"));
   ("ErrRateLimited", (429, "rate limit exceeded"));
   ("ErrTooManyRequests", (429, "too many requests"));
   ("ErrQuotaExceeded", (429, "quota exceeded"));
   ("ErrAPILimitReached", (429, "api limit reached"));
   ("ErrFileTooLarge", (413, "file too large"));
   ("ErrFileFormatInvalid", (415, "invalid file format"));
   ("ErrFileUploadFailed", (400, "file upload failed"));
   ("ErrFileProcessing", (422, "file processing error"));
   ("ErrStorageFull", (507, "storage full"));
   ("ErrInternalError", (500, "internal server error"));
   ("ErrDatabaseError", (500, "database error"));
   ("ErrTimeoutError", (504, "operation timeout"));
   ("ErrServiceUnavailable", (503, "service unavailable"));
   ("ErrMaintenanceMode", (503, "service under maintenance"));
   ("ErrExternalService", (502, "external service error"));
   ("ErrNetworkError", (500, "network error"));
   ("ErrConnectionRefused", (503, "connection refused"));
   ("ErrDNSError", (502, "dns resolution error"));
   ("ErrSSLError", (502, "ssl/tls error"));
   ("ErrProxyError", (502, "proxy error"));
   ("ErrParseError", (400, "parsing error"));
   ("ErrJSONInvalid", (400, "invalid json"));
   ("ErrXMLInvalid", (400, "invalid xml"));
   ("ErrFormatUnsupported", (415, "unsupported format"));
   ("ErrEncodingError", (400, "encoding error"))]%string.

(** Package initialisation: the variables are initialised in declaration
    order, each by one call of [New], starting from the zero counter. *)
Definition package_init : list CError :=
  constructed errorCounter_init
    ((λ v, CallNew v.2.1 v.2.2) <$> predefined).

(** * Properties *)

(** ** Induction over cause chains *)

Lemma error_chain_ind (P : error → Prop) :
  (∀ c, (∀ next, wrapped c = Some next → P next) → P (PtrCError c)) →
  (∀ text next, P next → P (Foreign text (Some (Some next)))) →
  (∀ text, P (Foreign text (Some None))) →
  (∀ text, P (Foreign text None)) →
  ∀ e, P e.
Proof.
  intros HC HU HN HS. fix IH 1. intros [c | text [[next|]|]].
  - apply HC. destruct c as [[w|] d u m i co]; simpl; intros next Hn.
    + injection Hn as <-. apply IH.
    + discriminate.
  - apply HU, IH.
  - apply HN.
  - apply HS.
Qed.

(** ** Identity and matching *)

Lemma Is_identity (a b : CError) :
  Is a (Some (PtrCError b)) = bool_decide (id a = id b).
Proof. reflexivity. Qed.

Lemma WithDetail_fields (h : heap) (e : CError) (d : string) :
  let b := (WithDetail h e d).2 in
  wrapped b = wrapped e ∧ userdetails b = userdetails e ∧ msg b = msg e
  ∧ id b = id e ∧ code b = code e.
Proof.
  unfold WithDetail, make, append; simpl.
  case_decide; simpl; done.
Qed.

Lemma WithUserDetail_fields (h : heap) (e : CError) (d : string) :
  let b := (WithUserDetail h e d).2 in
  wrapped b = wrapped e ∧ details b = details e ∧ msg b = msg e
  ∧ id b = id e ∧ code b = code e.
Proof.
  unfold WithUserDetail, make, append; simpl.
  case_decide; simpl; done.
Qed.

(** C1. Each of the five derivations keeps the receiver's [id], and [Is]
    holds in both directions between the receiver and the derived value,
    whatever argument was given and however the other fields differ. *)
Theorem derivation_keeps_identity (h : heap) (a : CError)
    (c : Z) (m : string) (w : option error) (d u : string) :
  Forall (λ b : CError,
            id b = id a
            ∧ Is a (Some (PtrCError b)) = true
            ∧ Is b (Some (PtrCError a)) = true)
         [WithCode a c; WithMessage a m; WithWrap a w;
          (WithDetail h a d).2; (WithUserDetail h a u).2].
Proof.
  assert (Hid : ∀ b : CError, id b = id a →
            id b = id a ∧ Is a (Some (PtrCError b)) = true
            ∧ Is b (Some (PtrCError a)) = true).
  { intros b Hb. rewrite !Is_identity, Hb, bool_decide_eq_true. done. }
  repeat apply Forall_cons_2; try apply Forall_nil_2; apply Hid.
  - reflexivity.
  - reflexivity.
  - reflexivity.
  - apply WithDetail_fields.
  - apply WithUserDetail_fields.
Qed.

(** ** Code matching *)

(** C10. [IsCode] answers true exactly for an argument within the uint16
    range that equals the stored code; outside the range it answers false. *)
Theorem IsCode_iff (e : CError) (c : Z) :
  (IsCode e c = true ↔ 0 <= c <= 65535 ∧ code e = c)
  ∧ (¬ (0 <= c <= 65535) → IsCode e c = false).
Proof.
  unfold IsCode, to_uint16. split.
  - destruct (bool_decide (c < 0)) eqn:Hlo; simpl.
    { apply bool_decide_eq_true in Hlo. split; [done | lia]. }
    destruct (bool_decide (c > 65535)) eqn:Hhi; simpl.
    { apply bool_decide_eq_true in Hhi. split; [done | lia]. }
    apply bool_decide_eq_false in Hlo, Hhi.
    rewrite bool_decide_eq_true, Z.mod_small by lia. split; [|tauto].
    intros ->. lia.
  - intros Hout.
    destruct (bool_decide (c < 0)) eqn:Hlo; simpl; [done|].
    destruct (bool_decide (c > 65535)) eqn:Hhi; simpl; [done|].
    apply bool_decide_eq_false in Hlo, Hhi. lia.
Qed.

(** ** Chain traversal *)

Lemma UnwrapAll_loop_chain (e : error) :
  ∀ acc, UnwrapAll_loop acc e = acc ++ cause_chain e.
Proof.
  induction e as [c IH | text next IH | text | text] using error_chain_ind;
    intros acc; simpl.
  - destruct (wrapped c) as [next|] eqn:Hw; [|done].
    rewrite (IH next eq_refl). by rewrite <- app_assoc.
  - rewrite IH. by rewrite <- app_assoc.
  - done.
  - done.
Qed.

Lemma cause_chain_walk (e : error) : chain_walk (Some e) (cause_chain e).
Proof.
  induction e as [c IH | text next IH | text | text] using error_chain_ind;
    simpl.
  - apply walk_cerror. destruct (wrapped c) as [next|] eqn:Hw.
    + by apply IH.
    + apply walk_nil.
  - by apply walk_unwrap.
  - apply walk_unwrap, walk_nil.
  - apply walk_stop.
Qed.

Lemma chain_walk_functional (o : option error) (l1 l2 : list error) :
  chain_walk o l1 → chain_walk o l2 → l1 = l2.
Proof.
  intros H1. revert l2.
  induction H1 as [| c l _ IH | text next l _ IH | text];
    intros l2 H2; inversion H2; subst; try done.
  - f_equal. by apply IH.
  - f_equal. by apply IH.
Qed.

Lemma UnwrapAll_cause_chain (c : CError) :
  UnwrapAll c = match wrapped c with
                | Some cause => cause_chain cause
                | None => []
                end.
Proof.
  unfold UnwrapAll. destruct (wrapped c); [|done].
  apply UnwrapAll_loop_chain.
Qed.

(** C5. [UnwrapAll] returns the links of the cause chain in order from the
    direct cause, as the walk over the chain prescribes, and nothing else
    satisfies that walk; with no cause the result is empty; on a chain
    [c3 -> c2 -> c1] with [c1] a plain foreign error it is [[c2; c1]]. *)
Theorem UnwrapAll_walks_chain :
  (∀ c : CError,
     chain_walk (wrapped c) (UnwrapAll c)
     ∧ ∀ l, chain_walk (wrapped c) l → l = UnwrapAll c)
  ∧ (∀ counter code msg, UnwrapAll (New counter code msg).2 = [])
  ∧ (∀ counter2 counter3 text code2 msg2 code3 msg3,
       let c1 := Foreign text None in
       let c2 := (Wrap counter2 (Some c1) code2 msg2).2 in
       let c3 := (Wrap counter3 (Some (PtrCError c2)) code3 msg3).2 in
       UnwrapAll c3 = [PtrCError c2; c1]).
Proof.
  split; [|split].
  - intros c.
    assert (Hw : chain_walk (wrapped c) (UnwrapAll c)).
    { rewrite UnwrapAll_cause_chain. destruct (wrapped c) as [cause|].
      - apply cause_chain_walk.
      - apply walk_nil. }
    split; [done|]. intros l Hl. by apply (chain_walk_functional (wrapped c)).
  - done.
  - done.
Qed.

(** ** Full diagnostic data *)

(** The keys of a literal field list are pairwise distinct. *)
Ltac distinct_keys :=
  simpl; apply (bool_decide_unpack _); vm_compute; reflexivity.

Lemma link_record_fields (link : error) (k : string) (v : link_value) :
  (list_to_map (link_fields link) : gmap string link_value) !! k = Some v
  ↔ (k, v) ∈ link_fields link.
Proof.
  symmetry. apply elem_of_list_to_map.
  destruct link as [c | text u]; simpl;
    repeat destruct (decide _); distinct_keys.
Qed.

Lemma cause_chain_nonempty (e : error) : (0 < length (cause_chain e))%nat.
Proof. destruct e; simpl; lia. Qed.

Lemma expandAllWrapped_loop_chain (e : error) :
  ∀ acc,
    expandAllWrapped_loop acc e
    = acc ++ ((λ link, list_to_map (link_fields link)) <$> cause_chain e).
Proof.
  induction e as [c IH | text next IH | text | text] using error_chain_ind;
    intros acc.
  - assert (Hrec :
      (let wrappedData : gmap string link_value := ∅ in
       let wrappedData := <["message"%string := VString (msg c)]> wrappedData in
       let wrappedData := <["code"%string := VUint16 (code c)]> wrappedData in
       let wrappedData :=
         if decide (0 < len (details c))%nat
         then <["details"%string := VStrings (details c)]> wrappedData
         else wrappedData in
       if decide (0 < len (userdetails c))%nat
       then <["user_details"%string := VStrings (userdetails c)]> wrappedData
       else wrappedData)
      = list_to_map (link_fields (PtrCError c))).
    { simpl. repeat destruct (decide _); try lia; reflexivity. }
    simpl in *. rewrite Hrec. clear Hrec.
    destruct (wrapped c) as [next|] eqn:Hw.
    + rewrite (IH next eq_refl). by rewrite <- app_assoc.
    + done.
  - simpl. rewrite IH. by rewrite <- app_assoc.
  - done.
  - done.
Qed.

(** C9. The record returned by [FullData] holds exactly the diagnostic
    fields of the error value: message and code; [details] and
    [user_details] when non-empty; and, when there is a cause, under
    [wrapped] one record per link of the whole cause chain in order, a CError
    link giving its message, code and non-empty detail sequences, a foreign
    link only its error text. *)
Theorem FullData_fields (e : CError) :
  (∀ k v, FullData e !! k = Some v ↔ (k, v) ∈ diagnostic_fields e)
  ∧ (∀ link k v,
       (list_to_map (link_fields link) : gmap string link_value) !! k = Some v
       ↔ (k, v) ∈ link_fields link).
Proof.
  split; [|apply link_record_fields].
  assert (Heq : FullData e = list_to_map (diagnostic_fields e)).
  { unfold FullData, diagnostic_fields, expandAllWrapped.
    destruct (wrapped e) as [cause|].
    - rewrite expandAllWrapped_loop_chain. simpl.
      pose proof (cause_chain_nonempty cause) as Hne.
      destruct (decide (0 < length _)%nat) as [_|Hlen];
        [|rewrite length_fmap in Hlen; lia].
      repeat destruct (decide _); try lia; reflexivity.
    - repeat destruct (decide _); try lia; reflexivity. }
  intros k v. rewrite Heq. symmetry. apply elem_of_list_to_map.
  unfold diagnostic_fields.
  destruct (wrapped e); repeat destruct (decide _); distinct_keys.
Qed.

(** ** Identity allocation *)

Lemma wrap_int32_idem (x y : Z) :
  wrap_int32 (wrap_int32 x + y) = wrap_int32 (x + y).
Proof.
  unfold wrap_int32. f_equal.
  replace ((x + int32_half) mod int32_modulus - int32_half + y + int32_half)
    with ((x + int32_half) mod int32_modulus + y) by lia.
  rewrite Zplus_mod_idemp_l. f_equal. lia.
Qed.

Lemma wrap_int32_eq (x y : Z) :
  wrap_int32 x = wrap_int32 y → (x - y) mod int32_modulus = 0.
Proof.
  unfold wrap_int32. intros H.
  assert (Hm : (x + int32_half) mod int32_modulus
               = (y + int32_half) mod int32_modulus) by lia.
  replace (x - y) with ((x + int32_half) - (y + int32_half)) by lia.
  rewrite Zminus_mod, Hm, Z.sub_diag. reflexivity.
Qed.

Lemma construct_id (c : Z) (call : construction) :
  (construct c call).1 = wrap_int32 (c + 1)
  ∧ id (construct c call).2 = wrap_int32 (c + 1).
Proof. destruct call; done. Qed.

Lemma constructed_length (calls : list construction) :
  ∀ c, length (constructed c calls) = length calls.
Proof.
  induction calls as [|call rest IH]; intros c; simpl; [done|].
  destruct (construct c call) as [c' e]. simpl. by rewrite IH.
Qed.

Lemma constructed_id (calls : list construction) :
  ∀ c i e,
    constructed c calls !! i = Some e →
    id e = wrap_int32 (c + Z.of_nat i + 1).
Proof.
  induction calls as [|call rest IH]; intros c i e; simpl; [done|].
  pose proof (construct_id c call) as [Hc He].
  destruct (construct c call) as [c' e']. simpl in *.
  destruct i as [|i]; simpl.
  - intros [= <-]. rewrite He. f_equal. lia.
  - intros Hi. rewrite (IH _ _ _ Hi), Hc.
    rewrite <- Z.add_assoc, wrap_int32_idem. f_equal. lia.
Qed.

(** How far uniqueness goes: the i-th construction call of a process returns
    the counter's start value plus i+1, wrapped to 32 bits; hence two
    different calls fewer than 2^32 calls apart return different [id]s. *)
Lemma construction_ids_distinct (c0 : Z) (calls : list construction)
    (i j : nat) (a b : CError) :
  constructed c0 calls !! i = Some a →
  constructed c0 calls !! j = Some b →
  i ≠ j →
  Z.abs (Z.of_nat i - Z.of_nat j) < 2 ^ 32 →
  id a = wrap_int32 (c0 + Z.of_nat i + 1)
  ∧ id b = wrap_int32 (c0 + Z.of_nat j + 1)
  ∧ id a ≠ id b.
Proof.
  intros Ha Hb Hij Hclose.
  apply constructed_id in Ha, Hb. repeat split; [done..|].
  rewrite Ha, Hb. intros Heq%wrap_int32_eq.
  replace (c0 + Z.of_nat i + 1 - (c0 + Z.of_nat j + 1))
    with (Z.of_nat i - Z.of_nat j) in Heq by lia.
  apply Z.mod_divide in Heq; [|done].
  destruct Heq as [k Hk]. unfold int32_modulus in Hk.
  assert (k = 0) by nia. lia.
Qed.

Example construction_ids_distinct_first_two :
  let calls := [CallNew 404 "user not found"; CallWrap None 500 "internal"] in
  ∃ a b,
    constructed errorCounter_init calls !! 0%nat = Some a
    ∧ constructed errorCounter_init calls !! 1%nat = Some b
    ∧ id a = 1 ∧ id b = 2 ∧ id a ≠ id b.
Proof.
  simpl. eexists _, _. split; [reflexivity|]. split; [reflexivity|].
  split; [reflexivity|]. split; [reflexivity|].
  eapply (construction_ids_distinct errorCounter_init
            [CallNew 404 "user not found"; CallWrap None 500 "internal"]
            0 1); [reflexivity | reflexivity | lia | simpl; lia].
Defined.

(** C6. Identities are meant to be unique among all values a process ever
    constructs, but the counter is an [int32]: in a process that makes
    2^32 + 1 construction calls, the first and the last return the same
    [id]. *)
Theorem construction_id_collision :
  let calls := replicate (Z.to_nat (2 ^ 32 + 1)) (CallNew 404 "not found") in
  ∃ a b,
    constructed errorCounter_init calls !! 0%nat = Some a
    ∧ constructed errorCounter_init calls !! Z.to_nat (2 ^ 32) = Some b
    ∧ 0%nat ≠ Z.to_nat (2 ^ 32)
    ∧ id a = id b.
Proof.
  intros calls.
  assert (Hlen : length (constructed errorCounter_init calls)
                 = Z.to_nat (2 ^ 32 + 1)).
  { rewrite constructed_length. apply length_replicate. }
  destruct (lookup_lt_is_Some_2 (constructed errorCounter_init calls) 0)
    as [a Ha]; [rewrite Hlen; lia|].
  destruct (lookup_lt_is_Some_2 (constructed errorCounter_init calls)
              (Z.to_nat (2 ^ 32))) as [b Hb]; [rewrite Hlen; lia|].
  exists a, b. split; [done|]. split; [done|]. split; [lia|].
  rewrite (constructed_id _ _ _ _ Ha), (constructed_id _ _ _ _ Hb).
  rewrite Z2Nat.id by lia. reflexivity.
Qed.

(** ** Backing storage of derived values *)

Lemma slice_ok_not_fresh (h : heap) (s : slice) :
  slice_ok h s → ptr s ≠ Some (fresh (dom h)).
Proof.
  unfold slice_ok. destruct (ptr s) as [l|]; [|done].
  intros (a & Ha & _) [= ->].
  apply (is_fresh (dom h)). apply elem_of_dom. by exists a.
Qed.

Lemma elems_insert_ne (h : heap) (l : loc) (arr : list string) (s : slice) :
  ptr s ≠ Some l → elems (<[l := arr]> h) s = elems h s.
Proof.
  unfold elems, backing. destruct (ptr s) as [l'|]; [|done].
  intros Hne. rewrite lookup_insert_ne; [done|]. congruence.
Qed.

Lemma elems_length (h : heap) (s : slice) :
  slice_ok h s → length (elems h s) = len s.
Proof.
  unfold slice_ok, elems, backing. destruct (ptr s) as [l|].
  - intros (a & -> & Hcap & Hlen). simpl. rewrite length_take. lia.
  - intros [-> _]. done.
Qed.

Lemma slice_ok_insert_fresh (h : heap) (arr : list string) (s : slice) :
  slice_ok h s → slice_ok (<[fresh (dom h) := arr]> h) s.
Proof.
  intros Hok. pose proof (slice_ok_not_fresh _ _ Hok) as Hne.
  unfold slice_ok in *. destruct (ptr s) as [l|]; [|done].
  destruct Hok as (a & Ha & Hrest). exists a. split; [|done].
  rewrite lookup_insert_ne; [done|]. congruence.
Qed.

(** The sequence [make], [copy], [append] shared by [WithDetail] and
    [WithUserDetail]: one fresh array holding the old elements and then the
    new one; nothing else in the heap changes. *)
Lemma make_copy_append (h : heap) (s : slice) (x : string) :
  slice_ok h s →
  let '(h1, d) := make h (len s) (len s + 1) in
  append (copy h1 d s) d x
  = (<[fresh (dom h) := elems h s ++ [x]]> h,
     Slice (Some (fresh (dom h))) (S (len s)) (len s + 1)).
Proof.
  intros Hok. pose proof (slice_ok_not_fresh _ _ Hok) as Hne.
  pose proof (elems_length _ _ Hok) as Hlen.
  unfold make, copy, append. simpl.
  destruct (decide (len s < len s + 1)%nat) as [_|]; [|lia].
  f_equal. unfold backing at 1. simpl. rewrite lookup_insert_eq. simpl.
  rewrite insert_insert_eq, insert_insert_eq.
  rewrite Nat.min_id, elems_insert_ne by done.
  unfold backing. simpl. rewrite lookup_insert_eq. simpl.
  rewrite take_ge by lia. rewrite drop_replicate.
  replace (len s + 1 - len s)%nat with 1%nat by lia. simpl.
  f_equal. rewrite <- Hlen at 1.
  rewrite insert_app_r_alt by lia. by rewrite Nat.sub_diag.
Qed.

Lemma WithDetail_eq (h : heap) (e : CError) (x : string) :
  slice_ok h (details e) →
  WithDetail h e x
  = (<[fresh (dom h) := elems h (details e) ++ [x]]> h,
     mkCError (wrapped e)
              (Slice (Some (fresh (dom h))) (S (len (details e)))
                     (len (details e) + 1))
              (userdetails e) (msg e) (id e) (code e)).
Proof.
  intros Hok. unfold WithDetail.
  pose proof (make_copy_append h (details e) x Hok) as H.
  destruct (make h (len (details e)) (len (details e) + 1)) as [h1 d].
  by rewrite H.
Qed.

Lemma WithUserDetail_eq (h : heap) (e : CError) (x : string) :
  slice_ok h (userdetails e) →
  WithUserDetail h e x
  = (<[fresh (dom h) := elems h (userdetails e) ++ [x]]> h,
     mkCError (wrapped e) (details e)
              (Slice (Some (fresh (dom h))) (S (len (userdetails e)))
                     (len (userdetails e) + 1))
              (msg e) (id e) (code e)).
Proof.
  intros Hok. unfold WithUserDetail.
  pose proof (make_copy_append h (userdetails e) x Hok) as H.
  destruct (make h (len (userdetails e)) (len (userdetails e) + 1)) as [h1 d].
  by rewrite H.
Qed.

Lemma elems_fresh_slice (h : heap) (l : loc) (arr : list string) (c : nat) :
  elems (<[l := arr]> h) (Slice (Some l) (length arr) c) = arr.
Proof.
  unfold elems, backing. simpl. rewrite lookup_insert_eq. simpl.
  by rewrite firstn_all.
Qed.

Lemma slice_ok_fresh_slice (h : heap) (l : loc) (arr : list string) :
  slice_ok (<[l := arr]> h) (Slice (Some l) (length arr) (length arr)).
Proof.
  unfold slice_ok. simpl. exists arr. by rewrite lookup_insert_eq.
Qed.

Lemma WithDetail_storage (h : heap) (a : CError) (x : string) :
  CError_ok h a →
  let h' := (WithDetail h a x).1 in
  let b := (WithDetail h a x).2 in
  (∀ l arr, h !! l = Some arr → h' !! l = Some arr)
  ∧ (∀ s, slice_ok h s → elems h' s = elems h s ∧ slice_ok h' s)
  ∧ (∃ l, ptr (details b) = Some l ∧ l ∉ dom h)
  ∧ elems h' (details b) = elems h (details a) ++ [x]
  ∧ userdetails b = userdetails a
  ∧ CError_ok h' b.
Proof.
  intros [Hd Hu]. rewrite (WithDetail_eq h a x Hd). simpl.
  pose proof (elems_length _ _ Hd) as Hlen.
  assert (Hfresh : fresh (dom h) ∉ dom h) by apply is_fresh.
  assert (Hframe : ∀ s, slice_ok h s →
            elems (<[fresh (dom h) := elems h (details a) ++ [x]]> h) s
            = elems h s
            ∧ slice_ok (<[fresh (dom h) := elems h (details a) ++ [x]]> h) s).
  { intros s Hs. split.
    - apply elems_insert_ne. by apply slice_ok_not_fresh.
    - by apply slice_ok_insert_fresh. }
  assert (Hnew : S (len (details a))
                 = length (elems h (details a) ++ [x])).
  { rewrite length_app. simpl. lia. }
  repeat split.
  - intros l arr Hl. rewrite lookup_insert_ne; [done|].
    intros <-. apply Hfresh, elem_of_dom. by exists arr.
  - by apply Hframe.
  - by apply Hframe.
  - by exists (fresh (dom h)).
  - rewrite Hnew. apply elems_fresh_slice.
  - unfold CError_ok, slice_ok. simpl.
    exists (elems h (details a) ++ [x]).
    rewrite lookup_insert_eq. repeat split; lia.
  - by apply Hframe.
Qed.

Lemma WithUserDetail_storage (h : heap) (a : CError) (x : string) :
  CError_ok h a →
  let h' := (WithUserDetail h a x).1 in
  let b := (WithUserDetail h a x).2 in
  (∀ l arr, h !! l = Some arr → h' !! l = Some arr)
  ∧ (∀ s, slice_ok h s → elems h' s = elems h s ∧ slice_ok h' s)
  ∧ (∃ l, ptr (userdetails b) = Some l ∧ l ∉ dom h)
  ∧ elems h' (userdetails b) = elems h (userdetails a) ++ [x]
  ∧ details b = details a
  ∧ CError_ok h' b.
Proof.
  intros [Hd Hu]. rewrite (WithUserDetail_eq h a x Hu). simpl.
  pose proof (elems_length _ _ Hu) as Hlen.
  assert (Hfresh : fresh (dom h) ∉ dom h) by apply is_fresh.
  assert (Hframe : ∀ s, slice_ok h s →
            elems (<[fresh (dom h) := elems h (userdetails a) ++ [x]]> h) s
            = elems h s
            ∧ slice_ok (<[fresh (dom h) := elems h (userdetails a) ++ [x]]> h) s).
  { intros s Hs. split.
    - apply elems_insert_ne. by apply slice_ok_not_fresh.
    - by apply slice_ok_insert_fresh. }
  assert (Hnew : S (len (userdetails a))
                 = length (elems h (userdetails a) ++ [x])).
  { rewrite length_app. simpl. lia. }
  repeat split.
  - intros l arr Hl. rewrite lookup_insert_ne; [done|].
    intros <-. apply Hfresh, elem_of_dom. by exists arr.
  - by apply Hframe.
  - by apply Hframe.
  - by exists (fresh (dom h)).
  - rewrite Hnew. apply elems_fresh_slice.
  - by apply Hframe.
  - unfold slice_ok. simpl.
    exists (elems h (userdetails a) ++ [x]).
    rewrite lookup_insert_eq. repeat split; lia.
Qed.

(** Fresh storage is shared with no slice that was valid before. *)
Lemma fresh_not_shared (h : heap) (s t : slice) (l : loc) :
  ptr s = Some l → l ∉ dom h → slice_ok h t → ¬ shares_storage s t.
Proof.
  intros Hs Hl Ht (l' & Hs' & Ht'). rewrite Hs in Hs'. injection Hs' as <-.
  unfold slice_ok in Ht. rewrite Ht' in Ht. destruct Ht as (a & Ha & _).
  apply Hl, elem_of_dom. by exists a.
Qed.

(** Why the copy matters: appending twice to one slice with spare capacity
    writes the same array cell, and the first result reads the second
    element. *)
Example append_in_place_aliases :
  let '(h0, s) := make ∅ 0 2 in
  let '(h1, a) := append h0 s "x" in
  let '(h2, b) := append h1 s "y" in
  elems h1 a = ["x"%string] ∧ elems h2 a = ["y"%string]
  ∧ elems h2 b = ["y"%string] ∧ shares_storage a b.
Proof.
  vm_compute. repeat split. by exists 0%nat.
Qed.

(** C4, as amended. No derivation writes to storage that existed before:
    the receiver's two sequences read the same afterwards. [WithDetail] and
    [WithUserDetail] build the extended sequence in a freshly allocated
    array, shared with neither sequence of the receiver, so that two values
    derived from one template each hold the template's elements followed by
    their own. The sequence a derivation does not extend keeps the
    receiver's slice header: both sequences under [WithCode], [WithMessage]
    and [WithWrap], the other one under [WithDetail] and [WithUserDetail]. *)
Theorem derivation_storage (h : heap) (a : CError) (x y : string)
    (c : Z) (m : string) (w : option error) :
  CError_ok h a →
  let hA := (WithDetail h a x).1 in
  let tA := (WithDetail h a x).2 in
  let hB := (WithDetail hA a y).1 in
  let tB := (WithDetail hA a y).2 in
  let hU := (WithUserDetail h a x).1 in
  let tU := (WithUserDetail h a x).2 in
  let hV := (WithUserDetail hU a y).1 in
  let tV := (WithUserDetail hU a y).2 in
  (* the receiver reads the same after each derivation *)
  (∀ h', h' ∈ [hA; hB; hU; hV] →
     elems h' (details a) = elems h (details a)
     ∧ elems h' (userdetails a) = elems h (userdetails a)
     ∧ ∀ l arr, h !! l = Some arr → h' !! l = Some arr)
  (* copy, then append, into fresh storage *)
  ∧ elems hA (details tA) = elems h (details a) ++ [x]
  ∧ elems hU (userdetails tU) = elems h (userdetails a) ++ [x]
  ∧ ¬ shares_storage (details tA) (details a)
  ∧ ¬ shares_storage (details tA) (userdetails a)
  ∧ ¬ shares_storage (userdetails tU) (userdetails a)
  ∧ ¬ shares_storage (userdetails tU) (details a)
  (* independent derivations from one template *)
  ∧ elems hB (details tA) = elems h (details a) ++ [x]
  ∧ elems hB (details tB) = elems h (details a) ++ [y]
  ∧ ¬ shares_storage (details tA) (details tB)
  ∧ elems hV (userdetails tU) = elems h (userdetails a) ++ [x]
  ∧ elems hV (userdetails tV) = elems h (userdetails a) ++ [y]
  ∧ ¬ shares_storage (userdetails tU) (userdetails tV)
  (* headers that are copied as they are *)
  ∧ userdetails tA = userdetails a
  ∧ details tU = details a
  ∧ Forall (λ b : CError,
              details b = details a ∧ userdetails b = userdetails a)
           [WithCode a c; WithMessage a m; WithWrap a w].
Proof.
  intros Hok hA tA hB tB hU tU hV tV.
  destruct (WithDetail_storage h a x Hok)
    as (HfA & HsA & (lA & HpA & HlA) & HeA & HuA & HokA).
  destruct (WithUserDetail_storage h a x Hok)
    as (HfU & HsU & (lU & HpU & HlU) & HeU & HdU & HokU).
  fold hA tA in HfA, HsA, HpA, HeA, HuA, HokA.
  fold hU tU in HfU, HsU, HpU, HeU, HdU, HokU.
  destruct Hok as [Hd Hu].
  assert (HokA' : CError_ok hA a).
  { split; [apply (HsA _ Hd) | apply (HsA _ Hu)]. }
  assert (HokU' : CError_ok hU a).
  { split; [apply (HsU _ Hd) | apply (HsU _ Hu)]. }
  destruct (WithDetail_storage hA a y HokA')
    as (HfB & HsB & (lB & HpB & HlB) & HeB & HuB & HokB).
  destruct (WithUserDetail_storage hU a y HokU')
    as (HfV & HsV & (lV & HpV & HlV) & HeV & HdV & HokV).
  fold hB tB in HfB, HsB, HpB, HeB, HuB, HokB.
  fold hV tV in HfV, HsV, HpV, HeV, HdV, HokV.
  destruct HokA as [HokAd HokAu]. destruct HokU as [HokUd HokUu].
  destruct HokA' as [HdA HuA']. destruct HokU' as [HdU' HuU].
  split.
  { intros h' Hh'. repeat (apply elem_of_cons in Hh' as [-> | Hh']).
    - split; [apply (HsA _ Hd)|]. split; [apply (HsA _ Hu)|]. done.
    - split; [|split].
      + destruct (HsB _ HdA) as [-> _]. apply (HsA _ Hd).
      + destruct (HsB _ HuA') as [-> _]. apply (HsA _ Hu).
      + intros l arr Hl. by apply HfB, HfA.
    - split; [apply (HsU _ Hd)|]. split; [apply (HsU _ Hu)|]. done.
    - split; [|split].
      + destruct (HsV _ HdU') as [-> _]. apply (HsU _ Hd).
      + destruct (HsV _ HuU) as [-> _]. apply (HsU _ Hu).
      + intros l arr Hl. by apply HfV, HfU.
    - by apply elem_of_nil in Hh'. }
  split; [done|]. split; [done|].
  split; [by apply (fresh_not_shared h _ _ lA)|].
  split; [by apply (fresh_not_shared h _ _ lA)|].
  split; [by apply (fresh_not_shared h _ _ lU)|].
  split; [by apply (fresh_not_shared h _ _ lU)|].
  split; [by destruct (HsB _ HokAd) as [-> _]|].
  split; [by rewrite HeB; destruct (HsA _ Hd) as [-> _]|].
  split.
  { intros Hsh. apply (fresh_not_shared hA (details tB) (details tA) lB);
      [done..|]. destruct Hsh as (l & H1 & H2). by exists l. }
  split; [by destruct (HsV _ HokUu) as [-> _]|].
  split; [by rewrite HeV; destruct (HsU _ Hu) as [-> _]|].
  split.
  { intros Hsh. apply (fresh_not_shared hU (userdetails tV) (userdetails tU) lV);
      [done..|]. destruct Hsh as (l & H1 & H2). by exists l. }
  split; [done|]. split; [done|].
  repeat apply Forall_cons_2; try apply Forall_nil_2; done.
Qed.

Lemma derivation_storage_witness :
  let e0 := (New errorCounter_init 404 "user not found").2 in
  let h := (WithDetail ∅ e0 "lookup failed").1 in
  let a := (WithDetail ∅ e0 "lookup failed").2 in
  let hA := (WithDetail h a "x").1 in
  let tA := (WithDetail h a "x").2 in
  let hB := (WithDetail hA a "y").1 in
  let tB := (WithDetail hA a "y").2 in
  CError_ok h a
  ∧ elems hB (details a) = ["lookup failed"]
  ∧ elems hB (details tA) = ["lookup failed"; "x"]
  ∧ elems hB (details tB) = ["lookup failed"; "y"]
  ∧ ¬ shares_storage (details tA) (details a).
Proof.
  intros e0 h a hA tA hB tB.
  assert (Hok : CError_ok h a).
  { split.
    - exists ["lookup failed"]. vm_compute. repeat split; lia.
    - vm_compute. done. }
  split; [exact Hok|].
  pose proof (derivation_storage h a "x" "y" 500 "m" None Hok) as H.
  simpl in H. destruct H as (Hrecv & _ & _ & Hns & _ & _ & _ & HA & HB & _).
  destruct (Hrecv hB) as [Hrd _];
    [apply elem_of_cons; right; apply elem_of_cons; by left|].
  split; [exact Hrd|]. split; [exact HA|]. split; [exact HB|]. exact Hns.
Defined.

(** C4, refuted as stated. A value derived by [WithCode] shares the
    backing array of the receiver's technical details, and a value derived
    by [WithUserDetail] does so too. *)
Lemma derivation_shares_storage :
  let e0 := (New errorCounter_init 404 "user not found").2 in
  let h := (WithDetail ∅ e0 "lookup failed").1 in
  let a := (WithDetail ∅ e0 "lookup failed").2 in
  CError_ok h a
  ∧ shares_storage (details (WithCode a 500)) (details a)
  ∧ shares_storage (details (WithUserDetail h a "try again").2) (details a).
Proof.
  intros e0 h a. split; [|split].
  - split.
    + exists ["lookup failed"]. vm_compute. repeat split; lia.
    + vm_compute. done.
  - exists 0%nat. vm_compute. done.
  - exists 0%nat. vm_compute. done.
Qed.

(** ** Strings written by the encoder *)

Lemma encoded_string_from_valid (s : string) :
  ∀ pending,
    ValidString_from pending s = true → encoded_string_from pending s = s.
Proof.
  induction s as [|c t IH]; intros pending; [done|].
  cbn [ValidString_from encoded_string_from].
  destruct pending as [|k].
  - destruct (DecodeRuneInString (String c t)) as [size|]; [|done].
    intros Hv. by rewrite IH.
  - intros Hv. by rewrite IH.
Qed.

Lemma encoded_string_valid (s : string) :
  ValidString s = true → encoded_string s = s.
Proof. apply encoded_string_from_valid. Qed.

Lemma encoded_strings_valid (l : list string) :
  Forall (λ d, ValidString d = true) l → encoded_string <$> l = l.
Proof.
  induction 1 as [|d l Hd _ IH]; [done|].
  by rewrite fmap_cons, encoded_string_valid, IH.
Qed.

Lemma DecodeRuneInString_encoded (c : ascii) (t : string) (n : nat) :
  DecodeRuneInString (String c t) = Some n →
  DecodeRuneInString (String c (encoded_string_from (n - 1) t)) = Some n.
Proof.
  unfold DecodeRuneInString. destruct (first c) as [| |sz lo hi].
  - by intros [= <-].
  - done.
  - destruct t as [|s1 t1]; [done|].
    destruct (byte_between lo hi s1) eqn:H1; cbn [negb]; [|done].
    destruct (sz <=? 2)%nat eqn:Hsz2.
    { intros [= <-]. cbn [Nat.sub encoded_string_from].
      by rewrite ?H1, ?Hsz2. }
    destruct t1 as [|s2 t2]; [done|].
    destruct (continuation s2) eqn:H2; cbn [negb]; [|done].
    destruct (sz <=? 3)%nat eqn:Hsz3.
    { intros [= <-]. cbn [Nat.sub encoded_string_from].
      by rewrite ?H1, ?Hsz2, ?H2, ?Hsz3. }
    destruct t2 as [|s3 t3]; [done|].
    destruct (continuation s3) eqn:H3; cbn [negb]; [|done].
    intros [= <-]. cbn [Nat.sub encoded_string_from].
    by rewrite ?H1, ?Hsz2, ?H2, ?Hsz3, ?H3.
Qed.

Lemma RuneError_app (s : string) :
  (RuneError ++ s)%string
  = String "239"%char (String "191"%char (String "189"%char s)).
Proof. reflexivity. Qed.

Lemma encoded_string_from_is_valid (s : string) :
  ∀ pending,
    ValidString_from pending (encoded_string_from pending s) = true.
Proof.
  induction s as [|c t IH]; intros pending; [done|].
  cbn [encoded_string_from]. destruct pending as [|k].
  - destruct (DecodeRuneInString (String c t)) as [n|] eqn:Hdec.
    + cbn [ValidString_from].
      rewrite (DecodeRuneInString_encoded c t n Hdec). apply IH.
    + rewrite RuneError_app.
      change (ValidString_from 0 (encoded_string_from 0 t) = true).
      apply IH.
  - cbn [ValidString_from]. apply IH.
Qed.

Lemma encoded_string_is_valid (s : string) :
  ValidString (encoded_string s) = true.
Proof. apply encoded_string_from_is_valid. Qed.

Lemma encoded_string_idem (s : string) :
  encoded_string (encoded_string s) = encoded_string s.
Proof. apply encoded_string_valid, encoded_string_is_valid. Qed.

(** ** Safe serialisation *)

Lemma load_slice_elems (h : heap) (s : slice) :
  default [] (load_slice h s) = elems h s.
Proof.
  unfold load_slice, elems, backing. destruct (ptr s); [done|].
  by rewrite take_nil.
Qed.

Lemma json_Marshal_Details (m : string) (c : Z) (d : option (list string)) :
  json_Marshal (errorJSON.mk m c d)
  = JObject
      ([("message"%string, JString (encoded_string m));
        ("code"%string, JNumber (IntLit false (Z.to_N c)))]
       ++ match default [] d with
          | [] => []
          | ds => [("details"%string, JArray (JString ∘ encoded_string <$> ds))]
          end).
Proof. destruct d as [[|]|]; reflexivity. Qed.

(** C2, as amended. The record written by [MarshalJSON] has the members
    [message], [code] (the receiver's code) and, unless the user details are
    empty, [details], and no other member. The message and the user details,
    in order, stand in it as the encoder writes strings: every byte that is
    not part of a valid UTF-8 encoding replaced by U+FFFD, which changes a
    string exactly when it is not valid UTF-8; so they are the receiver's
    own when those are valid UTF-8. The record is determined by message,
    code and user details alone: two error values that agree on them
    serialise alike whatever their technical details, identity and cause. *)
Theorem MarshalJSON_safe (h : heap) (e : CError) :
  MarshalJSON h e
  = JSONText
      (JObject
         ([("message"%string, JString (encoded_string (msg e)));
           ("code"%string, JNumber (IntLit false (Z.to_N (code e))))]
          ++ match elems h (userdetails e) with
             | [] => []
             | ds =>
                 [("details"%string,
                   JArray (JString ∘ encoded_string <$> ds))]
             end))
  ∧ (∀ s, encoded_string s = s ↔ ValidString s = true)
  ∧ (∀ s, ValidString (encoded_string s) = true)
  ∧ (ValidString (msg e) = true →
     Forall (λ d, ValidString d = true) (elems h (userdetails e)) →
     MarshalJSON h e
     = JSONText
         (JObject
            ([("message"%string, JString (msg e));
              ("code"%string, JNumber (IntLit false (Z.to_N (code e))))]
             ++ match elems h (userdetails e) with
                | [] => []
                | ds => [("details"%string, JArray (JString <$> ds))]
                end)))
  ∧ (is_uint16 (code e) → Z.of_N (Z.to_N (code e)) = code e)
  ∧ ∀ (h' : heap) (tech : slice) (cause : option error) (identity : Z)
      (ud : slice),
      elems h' ud = elems h (userdetails e) →
      MarshalJSON h' (mkCError cause tech ud (msg e) identity (code e))
      = MarshalJSON h e.
Proof.
  assert (Hshape : ∀ (h0 : heap) (e0 : CError),
    MarshalJSON h0 e0
    = JSONText
        (JObject
           ([("message"%string, JString (encoded_string (msg e0)));
             ("code"%string, JNumber (IntLit false (Z.to_N (code e0))))]
            ++ match elems h0 (userdetails e0) with
               | [] => []
               | ds =>
                   [("details"%string,
                     JArray (JString ∘ encoded_string <$> ds))]
               end))).
  { intros h0 e0. unfold MarshalJSON.
    by rewrite json_Marshal_Details, load_slice_elems. }
  split; [apply Hshape|]. split.
  { intros s. split; [|apply encoded_string_valid].
    intros <-. apply encoded_string_is_valid. }
  split; [apply encoded_string_is_valid|]. split.
  { intros Hm Hud. rewrite Hshape, (encoded_string_valid _ Hm).
    destruct (elems h (userdetails e)) as [|d ds]; [done|].
    rewrite (list_fmap_compose encoded_string JString).
    by rewrite (encoded_strings_valid _ Hud). }
  split; [unfold is_uint16; lia|].
  intros h' tech cause identity ud Hud.
  rewrite !Hshape. simpl. by rewrite Hud.
Qed.

(** C2, refuted as stated. The message member is not always the receiver's
    message: for the message made of the single byte 0xFF the record holds
    U+FFFD. *)
Lemma MarshalJSON_message_not_verbatim :
  let v := (New errorCounter_init 400 (String "255"%char EmptyString)).2 in
  MarshalJSON ∅ v
  = JSONText
      (JObject [("message"%string, JString RuneError);
                ("code"%string, JNumber (IntLit false 400))])
  ∧ JString RuneError ≠ JString (msg v).
Proof.
  split; [vm_compute; reflexivity | discriminate].
Qed.

Lemma MarshalJSON_safe_witness :
  let v := (New errorCounter_init 404 "user not found").2 in
  ValidString (msg v) = true
  ∧ MarshalJSON ∅ v
    = JSONText (JObject [("message"%string, JString "user not found");
                         ("code"%string, JNumber (IntLit false 404))]).
Proof.
  intros v.
  destruct (MarshalJSON_safe ∅ v) as (_ & _ & _ & Hverbatim & _).
  split; [vm_compute; reflexivity|].
  apply Hverbatim; [vm_compute; reflexivity | vm_compute; constructor].
Defined.

(** The example of the specification. *)
Example MarshalJSON_user_not_found :
  let e0 := (New errorCounter_init 404 "user not found").2 in
  let s1 := WithDetail ∅ e0 "user_id: 123" in
  let s2 := WithUserDetail s1.1 s1.2 "User not found" in
  MarshalJSON s2.1 s2.2
  = JSONText
      (JObject [("message"%string, JString "user not found");
                ("code"%string, JNumber (IntLit false 404));
                ("details"%string, JArray [JString "User not found"])]).
Proof. vm_compute. reflexivity. Qed.

(** ** Deserialisation *)

Lemma decode_strings_of_strings (l : list string) :
  mapM (decode_string EmptyString) (JString <$> l) = Some l.
Proof.
  by apply mapM_fmap_Some.
Qed.

Lemma store_slice_elems (h : heap) (v : option (list string)) :
  elems (store_slice h v).1 (store_slice h v).2 = default [] v.
Proof.
  destruct v as [l|]; simpl.
  - apply elems_fresh_slice.
  - done.
Qed.

Lemma UnmarshalJSON_ok (h : heap) (e : CError) (data : bytes)
    (tmp : errorJSON.t) :
  json_Unmarshal data errorJSON.zero = inr tmp →
  UnmarshalJSON h e data
  = ((store_slice h (errorJSON.Details tmp)).1,
     inr (mkCError (wrapped e) (details e)
                   (store_slice h (errorJSON.Details tmp)).2
                   (errorJSON.Message tmp) (id e) (errorJSON.Code tmp))).
Proof.
  intros H. unfold UnmarshalJSON. rewrite H.
  by destruct (store_slice h (errorJSON.Details tmp)).
Qed.

Lemma decode_members_cons (tmp tmp' : errorJSON.t) (kv : string * json)
    (rest : list (string * json)) :
  decode_member tmp kv = Some tmp' →
  decode_members tmp (kv :: rest) = decode_members tmp' rest.
Proof. intros H. simpl. by rewrite H. Qed.

Lemma decode_member_message (tmp : errorJSON.t) (s : string) :
  decode_member tmp ("message"%string, JString s)
  = Some (errorJSON.mk s (errorJSON.Code tmp) (errorJSON.Details tmp)).
Proof. reflexivity. Qed.

Lemma decode_member_code (tmp : errorJSON.t) (n : N) :
  (n <= 65535)%N →
  decode_member tmp ("code"%string, JNumber (IntLit false n))
  = Some (errorJSON.mk (errorJSON.Message tmp) (Z.of_N n)
                       (errorJSON.Details tmp)).
Proof.
  intros Hn. unfold decode_member. simpl.
  by destruct (decide (n <= 65535)%N).
Qed.

Lemma decode_member_details (tmp : errorJSON.t) (l : list string) :
  decode_member tmp ("details"%string, JArray (JString <$> l))
  = Some (errorJSON.mk (errorJSON.Message tmp) (errorJSON.Code tmp) (Some l)).
Proof.
  unfold decode_member.
  change (field_of_key ("details"%string, JArray (JString <$> l)).1)
    with (Some FieldDetails).
  cbn [snd decode_strings]. by rewrite decode_strings_of_strings.
Qed.

Lemma json_Unmarshal_Marshal (data : errorJSON.t) :
  (Z.to_N (errorJSON.Code data) <= 65535)%N →
  json_Unmarshal (JSONText (json_Marshal data)) errorJSON.zero
  = inr (errorJSON.mk
           (encoded_string (errorJSON.Message data))
           (Z.of_N (Z.to_N (errorJSON.Code data)))
           match errorJSON.Details data with
           | Some (d :: ds) => Some (encoded_string <$> (d :: ds))
           | _ => None
           end).
Proof.
  intros Hc. destruct data as [m c d].
  unfold json_Unmarshal, json_Marshal.
  cbn [errorJSON.Message errorJSON.Code errorJSON.Details app] in *.
  rewrite (decode_members_cons _ _ _ _ (decode_member_message _ _)).
  rewrite (decode_members_cons _ _ _ _ (decode_member_code _ _ Hc)).
  destruct d as [[|d ds]|]; try reflexivity.
  rewrite (list_fmap_compose encoded_string JString).
  rewrite (decode_members_cons _ _ _ _ (decode_member_details _ _)).
  reflexivity.
Qed.

(** C3, as amended. Deserialising what [MarshalJSON] wrote for [v], into
    any receiver, succeeds and yields [v]'s code, and [v]'s message and
    user details, in order, with every byte that is not part of a valid
    UTF-8 encoding replaced by U+FFFD; they are reproduced exactly when
    they are valid UTF-8. *)
Theorem UnmarshalJSON_MarshalJSON (h : heap) (v e : CError) :
  is_uint16 (code v) →
  ∃ h' e',
    UnmarshalJSON h e (MarshalJSON h v) = (h', inr e')
    ∧ code e' = code v
    ∧ msg e' = encoded_string (msg v)
    ∧ elems h' (userdetails e') = encoded_string <$> elems h (userdetails v)
    ∧ (ValidString (msg v) = true → msg e' = msg v)
    ∧ (Forall (λ d, ValidString d = true) (elems h (userdetails v)) →
       elems h' (userdetails e') = elems h (userdetails v)).
Proof.
  intros Hcode. unfold is_uint16 in Hcode. unfold MarshalJSON.
  set (data := errorJSON.mk (msg v) (code v) (load_slice h (userdetails v))).
  assert (Hc : (Z.to_N (errorJSON.Code data) <= 65535)%N) by (simpl; lia).
  pose proof (json_Unmarshal_Marshal data Hc) as Hdec.
  rewrite (UnmarshalJSON_ok _ _ _ _ Hdec).
  cbn [errorJSON.Message errorJSON.Code errorJSON.Details data].
  set (d' := match load_slice h (userdetails v) with
             | Some (d :: ds) => Some (encoded_string <$> (d :: ds))
             | _ => None
             end).
  assert (Hud : elems (store_slice h d').1 (store_slice h d').2
                = encoded_string <$> elems h (userdetails v)).
  { rewrite store_slice_elems, <- load_slice_elems. unfold d'.
    by destruct (load_slice h (userdetails v)) as [[|d ds]|]. }
  eexists _, _. split; [reflexivity|].
  cbn [code msg userdetails].
  split; [lia|]. split; [done|]. split; [exact Hud|].
  split.
  - intros Hv. by apply encoded_string_valid.
  - intros Hv. rewrite Hud. by apply encoded_strings_valid.
Qed.

Lemma UnmarshalJSON_MarshalJSON_witness :
  let e0 := (New errorCounter_init 404 "user not found").2 in
  let s := WithUserDetail ∅ e0 "User not found" in
  is_uint16 (code s.2)
  ∧ ∃ h' e',
      UnmarshalJSON s.1 CError_zero (MarshalJSON s.1 s.2) = (h', inr e')
      ∧ code e' = 404
      ∧ msg e' = "user not found"%string
      ∧ elems h' (userdetails e') = ["User not found"%string].
Proof.
  intros e0 s.
  assert (Hc : is_uint16 (code s.2)) by (vm_compute; split; discriminate).
  split; [exact Hc|].
  destruct (UnmarshalJSON_MarshalJSON s.1 s.2 CError_zero Hc)
    as (h' & e' & Hrun & Hcode & Hmsg & Hud & _).
  exists h', e'. split; [exact Hrun|]. split; [exact Hcode|].
  split; [exact Hmsg|]. exact Hud.
Defined.

(** C3, refuted as stated. A message that is not valid UTF-8 (here the
    single byte 0xFF) does not survive the round trip: it comes back as
    U+FFFD. *)
Lemma roundtrip_invalid_utf8 :
  let v := (New errorCounter_init 400 (String "255"%char EmptyString)).2 in
  ∃ h' e',
    UnmarshalJSON ∅ CError_zero (MarshalJSON ∅ v) = (h', inr e')
    ∧ msg e' = RuneError
    ∧ msg e' ≠ msg v.
Proof.
  simpl. eexists _, _. split; [vm_compute; reflexivity|]. simpl.
  split; [reflexivity|]. discriminate.
Qed.

Lemma decode_members_record (m : string) (c : N) (ds : list string)
    (members : list (string * json)) :
  (c <= 65535)%N →
  (∀ kv, kv ∈ members →
     kv = ("message"%string, JString m)
     ∨ kv = ("code"%string, JNumber (IntLit false c))
     ∨ kv = ("details"%string, JArray (JString <$> ds))) →
  ∀ tmp, ∃ tmp',
    decode_members tmp members = Some tmp'
    ∧ (errorJSON.Message tmp' = m
       ∨ errorJSON.Message tmp' = errorJSON.Message tmp
         ∧ ("message"%string, JString m) ∉ members)
    ∧ (errorJSON.Code tmp' = Z.of_N c
       ∨ errorJSON.Code tmp' = errorJSON.Code tmp
         ∧ ("code"%string, JNumber (IntLit false c)) ∉ members)
    ∧ (errorJSON.Details tmp' = Some ds
       ∨ errorJSON.Details tmp' = errorJSON.Details tmp
         ∧ ("details"%string, JArray (JString <$> ds)) ∉ members).
Proof.
  intros Hc. induction members as [|kv rest IH]; intros Hall tmp.
  - exists tmp. split; [done|].
    repeat split; right; (split; [done | apply not_elem_of_nil]).
  - assert (Hrest : ∀ kv', kv' ∈ rest →
              kv' = ("message"%string, JString m)
              ∨ kv' = ("code"%string, JNumber (IntLit false c))
              ∨ kv' = ("details"%string, JArray (JString <$> ds))).
    { intros kv' Hin. apply Hall. by apply list_elem_of_further. }
    destruct (Hall kv (list_elem_of_here _ _)) as [-> | [-> | ->]].
    + destruct (IH Hrest (errorJSON.mk m (errorJSON.Code tmp)
                                       (errorJSON.Details tmp)))
        as (tmp' & Hrun & Hm & Hco & Hd).
      exists tmp'.
      rewrite (decode_members_cons _ _ _ _ (decode_member_message _ _)).
      split; [done|]. simpl in *. split; [|split].
      * left. by destruct Hm as [|[? _]].
      * destruct Hco as [|[? ?]]; [by left|right].
        split; [done|]. by apply not_elem_of_cons.
      * destruct Hd as [|[? ?]]; [by left|right].
        split; [done|]. by apply not_elem_of_cons.
    + destruct (IH Hrest (errorJSON.mk (errorJSON.Message tmp) (Z.of_N c)
                                       (errorJSON.Details tmp)))
        as (tmp' & Hrun & Hm & Hco & Hd).
      exists tmp'.
      rewrite (decode_members_cons _ _ _ _ (decode_member_code _ _ Hc)).
      split; [done|]. simpl in *. split; [|split].
      * destruct Hm as [|[? ?]]; [by left|right].
        split; [done|]. by apply not_elem_of_cons.
      * left. by destruct Hco as [|[? _]].
      * destruct Hd as [|[? ?]]; [by left|right].
        split; [done|]. by apply not_elem_of_cons.
    + destruct (IH Hrest (errorJSON.mk (errorJSON.Message tmp)
                                       (errorJSON.Code tmp) (Some ds)))
        as (tmp' & Hrun & Hm & Hco & Hd).
      exists tmp'.
      rewrite (decode_members_cons _ _ _ _ (decode_member_details _ _)).
      split; [done|]. simpl in *. split; [|split].
      * destruct Hm as [|[? ?]]; [by left|right].
        split; [done|]. by apply not_elem_of_cons.
      * destruct Hco as [|[? ?]]; [by left|right].
        split; [done|]. by apply not_elem_of_cons.
      * left. by destruct Hd as [|[? _]].
Qed.

(** C7. Deserialising a record of the wire shape with message [m], code
    [c] and details [ds] succeeds; the result has message [m], code [c] and
    user details [ds]; identity, technical details and cause are not
    assigned: they are those of the receiver, hence zero, nil and nil for a
    zero-valued receiver. *)
Theorem UnmarshalJSON_populates (h : heap) (e : CError) (m : string) (c : N)
    (ds : list string) (members : list (string * json)) :
  (c <= 65535)%N →
  record_of m c ds members →
  ∃ h' e',
    UnmarshalJSON h e (JSONText (JObject members)) = (h', inr e')
    ∧ msg e' = m
    ∧ code e' = Z.of_N c
    ∧ elems h' (userdetails e') = ds
    ∧ id e' = id e
    ∧ details e' = details e
    ∧ wrapped e' = wrapped e
    ∧ (e = CError_zero →
       id e' = 0 ∧ details e' = nil_slice ∧ wrapped e' = None).
Proof.
  intros Hc (Hall & Hm & Hco & Hd).
  destruct (decode_members_record m c ds members Hc Hall errorJSON.zero)
    as (tmp & Hrun & Htm & Htc & Htd).
  assert (Hdec : json_Unmarshal (JSONText (JObject members)) errorJSON.zero
                 = inr tmp).
  { simpl. by rewrite Hrun. }
  rewrite (UnmarshalJSON_ok _ _ _ _ Hdec).
  eexists _, _. split; [reflexivity|]. cbn [msg code userdetails id details wrapped].
  split; [by destruct Htm as [|[_ ?]]|].
  split; [by destruct Htc as [|[_ ?]]|].
  split.
  { rewrite store_slice_elems. destruct Htd as [-> | [-> Hnot]]; [done|].
    simpl. destruct ds as [|d ds]; [done|].
    exfalso. apply Hnot, Hd. done. }
  split; [done|]. split; [done|]. split; [done|].
  by intros ->.
Qed.

Lemma UnmarshalJSON_populates_witness :
  let members :=
    [("code"%string, JNumber (IntLit false 404));
     ("message"%string, JString "user not found");
     ("details"%string, JArray [JString "User not found"])] in
  (404 <= 65535)%N
  ∧ record_of "user not found" 404 ["User not found"%string] members
  ∧ ∃ h' e',
      UnmarshalJSON ∅ CError_zero (JSONText (JObject members)) = (h', inr e')
      ∧ msg e' = "user not found"%string
      ∧ code e' = 404
      ∧ elems h' (userdetails e') = ["User not found"%string]
      ∧ id e' = 0 ∧ details e' = nil_slice ∧ wrapped e' = None.
Proof.
  intros members.
  assert (Hc : (404 <= 65535)%N) by lia.
  assert (Hr : record_of "user not found" 404 ["User not found"%string] members).
  { unfold record_of, members. split; [|split; [|split]].
    - intros kv Hin. repeat (apply elem_of_cons in Hin as [-> | Hin]); auto.
      by apply elem_of_nil in Hin.
    - apply list_elem_of_further, list_elem_of_here.
    - apply list_elem_of_here.
    - intros _. do 2 apply list_elem_of_further. apply list_elem_of_here. }
  split; [exact Hc|]. split; [exact Hr|].
  destruct (UnmarshalJSON_populates ∅ CError_zero _ _ _ _ Hc Hr)
    as (h' & e' & Hrun & Hm & Hco & Hud & _ & _ & _ & Hz).
  destruct (Hz eq_refl) as (Hid & Hdet & Hw).
  exists h', e'. repeat split; assumption.
Defined.

(** ** Decode failures *)

Example UnmarshalJSON_code_as_string :
  (UnmarshalJSON ∅ CError_zero
     (JSONText (JObject [("code"%string, JString "404")]))).2
  = inl UnmarshalTypeError.
Proof. reflexivity. Qed.

Example UnmarshalJSON_code_out_of_range :
  (UnmarshalJSON ∅ CError_zero
     (JSONText (JObject [("code"%string, JNumber (IntLit false 70000))]))).2
  = inl UnmarshalTypeError.
Proof. reflexivity. Qed.

Example UnmarshalJSON_folded_key :
  (UnmarshalJSON ∅ CError_zero
     (JSONText (JObject [("MESSAGE"%string, JString "gone");
                         ("extra"%string, JBool true)]))).2
  = inr (mkCError None nil_slice nil_slice "gone" 0 0).
Proof. reflexivity. Qed.

Example UnmarshalJSON_not_json :
  (UnmarshalJSON ∅ CError_zero NotJSON).2 = inl SyntaxError.
Proof. reflexivity. Qed.

Lemma decode_string_is_Some (old : string) (v : json) :
  is_Some (decode_string old v) ↔ v = JNull ∨ ∃ s, v = JString s.
Proof.
  destruct v; simpl; split;
    try (intros [? [=]]); try (intros [[=] | [? [=]]]); eauto.
Qed.

Lemma decode_uint16_is_Some (old : Z) (v : json) :
  is_Some (decode_uint16 old v)
  ↔ v = JNull ∨ ∃ n, v = JNumber (IntLit false n) ∧ (n <= 65535)%N.
Proof.
  split.
  - destruct v as [| |[[|] n|]| | |]; simpl; try (by intros [? [=]]); eauto.
    destruct (decide (n <= 65535)%N); [eauto|]. by intros [? [=]].
  - intros [-> | (n & -> & Hn)]; simpl; [eauto|].
    destruct (decide (n <= 65535)%N); [eauto|done].
Qed.

Lemma decode_strings_is_Some (v : json) :
  is_Some (decode_strings v)
  ↔ v = JNull
    ∨ ∃ l, v = JArray l ∧ Forall (λ x, x = JNull ∨ ∃ s, x = JString s) l.
Proof.
  assert (Helems : ∀ l,
    is_Some (mapM (decode_string EmptyString) l)
    ↔ Forall (λ x, x = JNull ∨ ∃ s, x = JString s) l).
  { intros l. rewrite mapM_is_Some. apply Forall_proper; [|done].
    intros x. apply decode_string_is_Some. }
  split.
  - destruct v as [| | | |l|]; simpl; try (by intros [? [=]]); eauto.
    rewrite fmap_is_Some, Helems. eauto.
  - intros [-> | (l & -> & Hl)]; simpl; [eauto|].
    by rewrite fmap_is_Some, Helems.
Qed.

Lemma bind_Some_is_Some {A B : Type} (o : option A) (f : A → B) :
  is_Some (x ← o; Some (f x)) ↔ is_Some o.
Proof.
  destruct o; simpl; split; intros [? H]; eauto; discriminate.
Qed.

Lemma decode_member_is_Some (tmp : errorJSON.t) (k : string) (v : json) :
  is_Some (decode_member tmp (k, v))
  ↔ ∀ f, field_of_key k = Some f → fits f v.
Proof.
  unfold decode_member, fits. cbn [fst snd].
  destruct (field_of_key k) as [[| |]|].
  - rewrite bind_Some_is_Some, decode_string_is_Some.
    split; [by intros H f [= <-] | intros H; by apply (H FieldMessage)].
  - rewrite bind_Some_is_Some, decode_uint16_is_Some.
    split; [by intros H f [= <-] | intros H; by apply (H FieldCode)].
  - rewrite bind_Some_is_Some, decode_strings_is_Some.
    split; [by intros H f [= <-] | intros H; by apply (H FieldDetails)].
  - split; [done | eauto].
Qed.

Lemma decode_members_is_Some (members : list (string * json)) :
  ∀ tmp,
    is_Some (decode_members tmp members)
    ↔ ∀ k v f, (k, v) ∈ members → field_of_key k = Some f → fits f v.
Proof.
  induction members as [|[k v] rest IH]; intros tmp.
  - simpl. split; [|eauto]. intros _ k v f Hin. by apply elem_of_nil in Hin.
  - cbn [decode_members]. split.
    + intros Hrun k' v' f Hin.
      destruct (decode_member tmp (k, v)) as [tmp'|] eqn:Hm;
        [|by destruct Hrun].
      apply elem_of_cons in Hin as [[= -> ->] | Hin].
      * apply (decode_member_is_Some tmp). by rewrite Hm.
      * revert Hin. by apply (IH tmp').
    + intros Hall.
      destruct (proj2 (decode_member_is_Some tmp k v)) as [tmp' Hm].
      { intros f. apply Hall, list_elem_of_here. }
      rewrite Hm. simpl. apply IH.
      intros k' v' f Hin. by apply Hall, list_elem_of_further.
Qed.

Lemma json_Unmarshal_accepted (data : bytes) (tmp : errorJSON.t) :
  (∃ tmp', json_Unmarshal data tmp = inr tmp') ↔ accepted data.
Proof.
  unfold accepted. split.
  - destruct data as [|[| | | | |members]]; simpl;
      try (by intros [? [=]]); [by left|].
    intros [tmp' Hrun]. right. exists members. split; [done|].
    apply (decode_members_is_Some members tmp).
    destruct (decode_members tmp members); [eauto | discriminate].
  - intros [-> | (members & -> & Hall)]; simpl; [eauto|].
    destruct (proj2 (decode_members_is_Some members tmp) Hall) as [tmp' ->].
    eauto.
Qed.

Lemma UnmarshalJSON_error_iff (h : heap) (e : CError) (data : bytes) :
  (∃ err, (UnmarshalJSON h e data).2 = inl err) ↔ ¬ accepted data.
Proof.
  rewrite <- (json_Unmarshal_accepted data errorJSON.zero).
  unfold UnmarshalJSON.
  destruct (json_Unmarshal data errorJSON.zero) as [err|tmp] eqn:Hrun.
  - simpl. split; [|eauto]. by intros _ [tmp [=]].
  - destruct (store_slice h (errorJSON.Details tmp)). simpl. split.
    + by intros [err [=]].
    + intros Hno. exfalso. apply Hno. eauto.
Qed.

Lemma decode_member_other (tmp tmp' : errorJSON.t) (kv : string * json) :
  decode_member tmp kv = Some tmp' →
  (field_of_key kv.1 ≠ Some FieldMessage →
   errorJSON.Message tmp' = errorJSON.Message tmp)
  ∧ (field_of_key kv.1 ≠ Some FieldCode →
     errorJSON.Code tmp' = errorJSON.Code tmp)
  ∧ (field_of_key kv.1 ≠ Some FieldDetails →
     errorJSON.Details tmp' = errorJSON.Details tmp).
Proof.
  unfold decode_member. destruct (field_of_key kv.1) as [[| |]|].
  - destruct (decode_string _ _); [|done]. intros [= <-]. by repeat split.
  - destruct (decode_uint16 _ _); [|done]. intros [= <-]. by repeat split.
  - destruct (decode_strings _); [|done]. intros [= <-]. by repeat split.
  - intros [= <-]. by repeat split.
Qed.

Lemma decode_members_other (f : field) (members : list (string * json)) :
  (∀ kv, kv ∈ members → field_of_key kv.1 ≠ Some f) →
  ∀ tmp tmp',
    decode_members tmp members = Some tmp' →
    match f with
    | FieldMessage => errorJSON.Message tmp' = errorJSON.Message tmp
    | FieldCode => errorJSON.Code tmp' = errorJSON.Code tmp
    | FieldDetails => errorJSON.Details tmp' = errorJSON.Details tmp
    end.
Proof.
  induction members as [|kv rest IH]; intros Habs tmp tmp'.
  - intros [= <-]. by destruct f.
  - cbn [decode_members].
    destruct (decode_member tmp kv) as [tmp1|] eqn:Hm; [|done].
    simpl. intros Hrest.
    assert (Hkv : field_of_key kv.1 ≠ Some f)
      by apply Habs, list_elem_of_here.
    assert (IH' := IH (λ kv' Hin, Habs kv' (list_elem_of_further _ _ _ Hin))
                      tmp1 tmp' Hrest).
    destruct (decode_member_other tmp tmp1 kv Hm) as (H1 & H2 & H3).
    destruct f; rewrite IH'; auto.
Qed.

Lemma decode_members_app (l1 l2 : list (string * json)) :
  ∀ tmp,
    decode_members tmp (l1 ++ l2)
    = tmp' ← decode_members tmp l1; decode_members tmp' l2.
Proof.
  induction l1 as [|kv l1 IH]; intros tmp; [done|].
  cbn [app decode_members]. destruct (decode_member tmp kv); [apply IH|done].
Qed.

Lemma decode_member_null (tmp : errorJSON.t) (k : string) :
  decode_member tmp (k, JNull)
  = Some match field_of_key k with
         | Some FieldDetails =>
             errorJSON.mk (errorJSON.Message tmp) (errorJSON.Code tmp) None
         | _ => tmp
         end.
Proof.
  unfold decode_member. cbn [fst snd].
  destruct tmp as [m c d]. by destruct (field_of_key k) as [[| |]|].
Qed.

Lemma decode_members_null (pre post : list (string * json)) (k : string) :
  field_of_key k ≠ Some FieldDetails →
  ∀ tmp,
    decode_members tmp (pre ++ (k, JNull) :: post)
    = decode_members tmp (pre ++ post).
Proof.
  intros Hk tmp. rewrite !decode_members_app.
  destruct (decode_members tmp pre) as [tmp1|]; [|done].
  cbn [mbind option_bind decode_members]. rewrite decode_member_null.
  by destruct (field_of_key k) as [[| |]|].
Qed.

Lemma decode_members_null_details (pre post : list (string * json))
    (k : string) (tmp tmp' : errorJSON.t) :
  field_of_key k = Some FieldDetails →
  (∀ kv, kv ∈ post → field_of_key kv.1 ≠ Some FieldDetails) →
  decode_members tmp (pre ++ (k, JNull) :: post) = Some tmp' →
  errorJSON.Details tmp' = None.
Proof.
  intros Hk Hpost. rewrite decode_members_app.
  destruct (decode_members tmp pre) as [tmp1|]; [|done].
  cbn [mbind option_bind decode_members]. rewrite decode_member_null, Hk.
  cbn [mbind option_bind]. intros Hrun.
  by rewrite (decode_members_other FieldDetails post Hpost _ _ Hrun).
Qed.

Lemma Is_at_target_of (e : CError) (target : option error) :
  Is_at e (Is_target_of target) = Returns (Is e target).
Proof. by destruct target as [[c|text u]|]. Qed.

Lemma has_type_fits (f : field) (v : json) : has_type f v → fits f v.
Proof.
  unfold has_type, fits. destruct f; intros H; right; [done..|].
  destruct H as (l & -> & Hl). exists l. split; [done|].
  eapply Forall_impl; [exact Hl|]. simpl. eauto.
Qed.




(** * Further properties of the package *)

(** ** Text rendering *)

Lemma string_app_assoc (s1 s2 s3 : string) :
  ((s1 ++ s2) ++ s3 = s1 ++ (s2 ++ s3))%string.
Proof.
  induction s1 as [|a s1 IH]; [reflexivity|].
  change (String a ((s1 ++ s2) ++ s3) = String a (s1 ++ (s2 ++ s3)))%string.
  by rewrite IH.
Qed.

Lemma string_app_nil_r (s : string) : (s ++ "")%string = s.
Proof.
  induction s as [|a s IH]; [reflexivity|].
  change (String a (s ++ "") = String a s)%string. by rewrite IH.
Qed.

Lemma string_concat_cons (sep x y : string) (l : list string) :
  String.concat sep (x :: y :: l)
  = (x ++ sep ++ String.concat sep (y :: l))%string.
Proof. reflexivity. Qed.

Lemma Error_details_loop_from (rest : list string) :
  ∀ errstr d i,
    Error_details_loop (errstr ++ d) (S i) rest
    = (errstr ++ String.concat ", " (d :: rest))%string.
Proof.
  induction rest as [|d' rest IH]; intros errstr d i; [reflexivity|].
  cbn [Error_details_loop]. destruct (decide (0 < S i)%nat); [|lia].
  rewrite (string_app_assoc errstr d ", "), IH, string_concat_cons.
  by rewrite !string_app_assoc.
Qed.

Lemma Error_details_loop_concat (errstr : string) (ds : list string) :
  Error_details_loop errstr 0 ds = (errstr ++ String.concat ", " ds)%string.
Proof.
  destruct ds as [|d rest]; [by rewrite string_app_nil_r|].
  cbn [Error_details_loop]. destruct (decide (0 < 0)%nat); [lia|].
  apply Error_details_loop_from.
Qed.

Lemma Error_body_own_text (h : heap) (e : CError) (cause : option string) :
  Error_body h e cause
  = (own_text h e
     ++ match cause with Some text => ", wrapped: " ++ text | None => "" end)%string.
Proof.
  unfold Error_body, own_text.
  change (EmptyString ++ ?s)%string with s.
  assert (Hown :
    match ptr (details e) with
    | Some _ =>
        (Error_details_loop
           (("message: " ++ msg e ++ ", code: " ++ format_uint (code e))
            ++ ", details: [") 0 (elems h (details e)) ++ "]")%string
    | None => ("message: " ++ msg e ++ ", code: " ++ format_uint (code e))%string
    end
    = ("message: " ++ msg e ++ ", code: " ++ format_uint (code e)
       ++ match ptr (details e) with
          | Some _ =>
              ", details: [" ++ String.concat ", " (elems h (details e)) ++ "]"
          | None => ""
          end)%string).
  { destruct (ptr (details e)).
    - rewrite Error_details_loop_concat. by rewrite !string_app_assoc.
    - by rewrite string_app_nil_r. }
  rewrite Hown. destruct cause; [done|]. by rewrite string_app_nil_r.
Qed.

(** X1. [Error] renders the message and the code in decimal, then, exactly
    when the details slice is not nil, the technical details joined by
    commas between brackets, then the text of the cause's own [Error]. User
    details and the identity have no part in it. *)
Theorem Error_text (h : heap) (e : CError) :
  Error h e
  = (own_text h e
     ++ match wrapped e with
        | Some cause => ", wrapped: " ++ error_Error h cause
        | None => ""
        end)%string
  ∧ ∀ (ud : slice) (identity : Z),
      Error h (mkCError (wrapped e) (details e) ud (msg e) identity (code e))
      = Error h e.
Proof.
  split; [|done].
  unfold Error. rewrite Error_body_own_text. by destruct (wrapped e).
Qed.

Lemma rendered_chain_cons (h : heap) (link : error) :
  ∃ x l, rendered_chain h link = x :: l.
Proof. destruct link; simpl; eauto. Qed.

Lemma error_Error_chain (h : heap) (err : error) :
  error_Error h err = String.concat ", wrapped: " (rendered_chain h err).
Proof.
  induction err as [c IH | text next IH | text | text] using error_chain_ind;
    try reflexivity.
  cbn [error_Error rendered_chain]. rewrite Error_body_own_text.
  destruct (wrapped c) as [next|] eqn:Hw.
  - rewrite (IH next eq_refl).
    destruct (rendered_chain_cons h next) as (x & l & ->).
    by rewrite string_concat_cons.
  - apply string_app_nil_r.
Qed.

(** X2. The text of [Error] runs through the whole chain of CError causes:
    it is the own text of the receiver and of every CError link after it,
    joined by ", wrapped: ", up to the end of the chain or to the first
    foreign link, whose text comes last. *)
Theorem Error_renders_chain (h : heap) (e : CError) :
  Error h e
  = String.concat ", wrapped: "
      (own_text h e ::
       match wrapped e with
       | Some cause => rendered_chain h cause
       | None => []
       end).
Proof.
  unfold Error. rewrite Error_body_own_text.
  destruct (wrapped e) as [cause|]; cbn [fmap option_fmap option_map].
  - rewrite error_Error_chain.
    destruct (rendered_chain_cons h cause) as (x & l & ->).
    by rewrite string_concat_cons.
  - apply string_app_nil_r.
Qed.

(** ** Chains of derivations *)

Lemma derive_identity (h : heap) (e : CError) (call : derivation) :
  id (derive h e call).2 = id e.
Proof.
  destruct call; try reflexivity.
  - apply WithDetail_fields.
  - apply WithUserDetail_fields.
Qed.

Lemma derive_all_identity (calls : list derivation) :
  ∀ h e, id (derive_all h e calls).2 = id e.
Proof.
  induction calls as [|call rest IH]; intros h e; [done|].
  cbn [derive_all]. pose proof (derive_identity h e call) as Hid.
  destruct (derive h e call) as [h' e']. rewrite IH. exact Hid.
Qed.

(** X3. Values reached from one template by any two chains of derivations
    match under [Is], in both directions, and match the template. *)
Theorem derived_siblings_match (h1 h2 : heap) (template : CError)
    (calls1 calls2 : list derivation) :
  let a := (derive_all h1 template calls1).2 in
  let b := (derive_all h2 template calls2).2 in
  Is a (Some (PtrCError b)) = true
  ∧ Is b (Some (PtrCError a)) = true
  ∧ Is a (Some (PtrCError template)) = true
  ∧ Is template (Some (PtrCError a)) = true.
Proof.
  intros a b. rewrite !Is_identity, !bool_decide_eq_true.
  unfold a, b. rewrite !derive_all_identity. done.
Qed.

Lemma derive_step (h : heap) (e : CError) (call : derivation) :
  CError_ok h e →
  let h' := (derive h e call).1 in
  let b := (derive h e call).2 in
  CError_ok h' b
  ∧ (∀ s, slice_ok h s → elems h' s = elems h s ∧ slice_ok h' s)
  ∧ elems h' (details b) = elems h (details e) ++ option_list (detail_arg call)
  ∧ elems h' (userdetails b)
    = elems h (userdetails e) ++ option_list (user_detail_arg call)
  ∧ code b = default (code e) (code_arg call)
  ∧ msg b = default (msg e) (message_arg call)
  ∧ wrapped b = default (wrapped e) (wrap_arg call).
Proof.
  intros Hok. destruct call as [c|m|w|d|d]; cbn [derive fst snd].
  - simpl. destruct Hok. rewrite !app_nil_r. by repeat split.
  - simpl. destruct Hok. rewrite !app_nil_r. by repeat split.
  - simpl. destruct Hok. rewrite !app_nil_r. by repeat split.
  - destruct (WithDetail_storage h e d Hok)
      as (_ & Hframe & _ & Hnew & Hud & Hok').
    pose proof (WithDetail_fields h e d) as (Hw & _ & Hm & _ & Hc).
    destruct Hok as [Hd Hu].
    split; [done|]. split; [done|]. split; [done|].
    split; [simpl; rewrite app_nil_r, Hud; by apply Hframe|].
    by rewrite Hw, Hm, Hc.
  - destruct (WithUserDetail_storage h e d Hok)
      as (_ & Hframe & _ & Hnew & Hdet & Hok').
    pose proof (WithUserDetail_fields h e d) as (Hw & _ & Hm & _ & Hc).
    destruct Hok as [Hd Hu].
    split; [done|]. split; [done|].
    split; [simpl; rewrite app_nil_r, Hdet; by apply Hframe|].
    split; [done|].
    by rewrite Hw, Hm, Hc.
Qed.

Lemma omap_cons_option_list {A B : Type} (f : A → option B) (x : A)
    (l : list A) :
  omap f (x :: l) = option_list (f x) ++ omap f l.
Proof. simpl. by destruct (f x). Qed.

Lemma default_last_cons {A : Type} (old : A) (x : option A) (l : list A) :
  default (default old x) (last l) = default old (last (option_list x ++ l)).
Proof.
  destruct x as [x|]; simpl; [|done].
  rewrite last_cons. by destruct (last l).
Qed.

Lemma derive_all_fields (calls : list derivation) :
  ∀ (h : heap) (e : CError),
    CError_ok h e →
    let h' := (derive_all h e calls).1 in
    let b := (derive_all h e calls).2 in
    CError_ok h' b
    ∧ (∀ s, slice_ok h s → elems h' s = elems h s ∧ slice_ok h' s)
    ∧ elems h' (details b) = elems h (details e) ++ omap detail_arg calls
    ∧ elems h' (userdetails b)
      = elems h (userdetails e) ++ omap user_detail_arg calls
    ∧ code b = default (code e) (last (omap code_arg calls))
    ∧ msg b = default (msg e) (last (omap message_arg calls))
    ∧ wrapped b = default (wrapped e) (last (omap wrap_arg calls)).
Proof.
  induction calls as [|call rest IH]; intros h e Hok.
  - destruct Hok. simpl. rewrite !app_nil_r. by repeat split.
  - cbn [derive_all].
    destruct (derive_step h e call Hok)
      as (Hok1 & Hframe1 & Hd1 & Hu1 & Hc1 & Hm1 & Hw1).
    destruct (derive h e call) as [h1 e1]. cbn [fst snd] in *.
    destruct (IH h1 e1 Hok1) as (Hok2 & Hframe2 & Hd2 & Hu2 & Hc2 & Hm2 & Hw2).
    rewrite !omap_cons_option_list.
    split; [done|]. split.
    { intros s Hs. destruct (Hframe1 s Hs) as [He1 Hs1].
      destruct (Hframe2 s Hs1) as [He2 Hs2]. split; [congruence|done]. }
    split; [by rewrite Hd2, Hd1, <- app_assoc|].
    split; [by rewrite Hu2, Hu1, <- app_assoc|].
    split; [by rewrite Hc2, Hc1, default_last_cons|].
    split; [by rewrite Hm2, Hm1, default_last_cons|].
    by rewrite Hw2, Hw1, default_last_cons.
Qed.

(** X4. A chain of derivations applied to a well-formed value gives a
    well-formed value with the receiver's identity, whose technical details
    are the receiver's followed by the arguments of the [WithDetail] calls
    in call order, likewise the user details with [WithUserDetail]; whose
    code, message and cause are the argument of the last [WithCode],
    [WithMessage] and [WithWrap] call, or the receiver's when there is no
    such call. The receiver itself reads as before. *)
Theorem derive_all_result (calls : list derivation) :
  ∀ (h : heap) (e : CError),
    CError_ok h e →
    let h' := (derive_all h e calls).1 in
    let b := (derive_all h e calls).2 in
    CError_ok h' b
    ∧ id b = id e
    ∧ elems h' (details b) = elems h (details e) ++ omap detail_arg calls
    ∧ elems h' (userdetails b)
      = elems h (userdetails e) ++ omap user_detail_arg calls
    ∧ code b = default (code e) (last (omap code_arg calls))
    ∧ msg b = default (msg e) (last (omap message_arg calls))
    ∧ wrapped b = default (wrapped e) (last (omap wrap_arg calls))
    ∧ elems h' (details e) = elems h (details e)
    ∧ elems h' (userdetails e) = elems h (userdetails e).
Proof.
  intros h e Hok h' b.
  destruct (derive_all_fields calls h e Hok)
    as (Hok' & Hframe & Hd & Hu & Hc & Hm & Hw).
  destruct Hok as [Hokd Hoku].
  split; [exact Hok'|]. split; [apply derive_all_identity|].
  split; [exact Hd|]. split; [exact Hu|]. split; [exact Hc|].
  split; [exact Hm|]. split; [exact Hw|].
  split; [apply (Hframe _ Hokd) | apply (Hframe _ Hoku)].
Qed.

Lemma derive_all_result_witness :
  let e := (New errorCounter_init 404 "user not found").2 in
  let calls :=
    [CallWithDetail "query failed"; CallWithCode 410;
     CallWithUserDetail "Try again"; CallWithDetail "user_id: 7";
     CallWithCode 422] in
  let r := derive_all ∅ e calls in
  CError_ok ∅ e
  ∧ elems r.1 (details r.2) = ["query failed"; "user_id: 7"]%string
  ∧ elems r.1 (userdetails r.2) = ["Try again"%string]
  ∧ code r.2 = 422
  ∧ msg r.2 = "user not found"%string.
Proof.
  intros e calls r.
  assert (Hok : CError_ok ∅ e) by (by split).
  split; [exact Hok|].
  destruct (derive_all_result calls ∅ e Hok)
    as (_ & _ & Hd & Hu & Hc & Hm & _).
  split; [exact Hd|]. split; [exact Hu|]. split; [exact Hc|]. exact Hm.
Defined.

(** ** Serialisation of derived values *)

Lemma MarshalJSON_shape (h : heap) (e : CError) :
  MarshalJSON h e
  = JSONText
      (JObject
         ([("message"%string, JString (encoded_string (msg e)));
           ("code"%string, JNumber (IntLit false (Z.to_N (code e))))]
          ++ match elems h (userdetails e) with
             | [] => []
             | ds =>
                 [("details"%string,
                   JArray (JString ∘ encoded_string <$> ds))]
             end)).
Proof.
  unfold MarshalJSON. by rewrite json_Marshal_Details, load_slice_elems.
Qed.

Lemma technical_args (calls : list derivation) :
  Forall technical calls →
  omap code_arg calls = [] ∧ omap message_arg calls = []
  ∧ omap user_detail_arg calls = [].
Proof.
  induction 1 as [|call rest Hc _ IH]; [done|].
  destruct call; try done; simpl; exact IH.
Qed.

(** X5. The JSON form of a value built by a chain of derivations holds the
    last message and code given (or the receiver's) and the receiver's user
    details followed by those added, in call order; a chain of [WithDetail]
    and [WithWrap] calls leaves the JSON form as it was. *)
Theorem MarshalJSON_derive_all (h : heap) (e : CError)
    (calls : list derivation) :
  CError_ok h e →
  let h' := (derive_all h e calls).1 in
  let b := (derive_all h e calls).2 in
  MarshalJSON h' b
  = JSONText
      (JObject
         ([("message"%string,
            JString (encoded_string
                       (default (msg e) (last (omap message_arg calls)))));
           ("code"%string,
            JNumber (IntLit false
                       (Z.to_N (default (code e) (last (omap code_arg calls))))))]
          ++ match elems h (userdetails e) ++ omap user_detail_arg calls with
             | [] => []
             | ds =>
                 [("details"%string,
                   JArray (JString ∘ encoded_string <$> ds))]
             end))
  ∧ (Forall technical calls → MarshalJSON h' b = MarshalJSON h e).
Proof.
  intros Hok h' b.
  destruct (derive_all_fields calls h e Hok) as (_ & _ & _ & Hu & Hc & Hm & _).
  fold h' b in Hu, Hc, Hm.
  assert (Hshape := MarshalJSON_shape h' b). rewrite Hu, Hc, Hm in Hshape.
  split; [exact Hshape|].
  intros Htech. destruct (technical_args calls Htech) as (Hc0 & Hm0 & Hu0).
  rewrite Hshape, Hc0, Hm0, Hu0, app_nil_r. simpl.
  by rewrite MarshalJSON_shape.
Qed.

Lemma MarshalJSON_derive_all_witness :
  let e := (New errorCounter_init 404 "user not found").2 in
  let calls :=
    [CallWithDetail "user_id: 123"; CallWithWrap (Some (Foreign "EOF" None));
     CallWithDetail "retries: 3"] in
  let r := derive_all ∅ e calls in
  CError_ok ∅ e ∧ Forall technical calls
  ∧ MarshalJSON r.1 r.2 = MarshalJSON ∅ e.
Proof.
  intros e calls r.
  assert (Hok : CError_ok ∅ e) by (by split).
  assert (Htech : Forall technical calls) by (by repeat constructor).
  split; [exact Hok|]. split; [exact Htech|].
  destruct (MarshalJSON_derive_all ∅ e calls Hok) as [_ Hsame].
  exact (Hsame Htech).
Defined.

(** ** Serialising twice *)

Lemma UnmarshalJSON_MarshalJSON_fields (h : heap) (v e : CError) :
  is_uint16 (code v) →
  ∃ h' e',
    UnmarshalJSON h e (MarshalJSON h v) = (h', inr e')
    ∧ code e' = code v
    ∧ msg e' = encoded_string (msg v)
    ∧ elems h' (userdetails e') = encoded_string <$> elems h (userdetails v)
    ∧ (elems h (userdetails v) = [] → userdetails e' = nil_slice)
    ∧ id e' = id e ∧ details e' = details e ∧ wrapped e' = wrapped e.
Proof.
  intros Hcode. unfold is_uint16 in Hcode. unfold MarshalJSON.
  set (data := errorJSON.mk (msg v) (code v) (load_slice h (userdetails v))).
  assert (Hc : (Z.to_N (errorJSON.Code data) <= 65535)%N) by (simpl; lia).
  pose proof (json_Unmarshal_Marshal data Hc) as Hdec.
  rewrite (UnmarshalJSON_ok _ _ _ _ Hdec).
  cbn [errorJSON.Message errorJSON.Code errorJSON.Details data].
  set (d' := match load_slice h (userdetails v) with
             | Some (d :: ds) => Some (encoded_string <$> (d :: ds))
             | _ => None
             end).
  eexists _, _. split; [reflexivity|].
  cbn [code msg userdetails id details wrapped].
  split; [lia|]. split; [done|]. split.
  { rewrite store_slice_elems, <- load_slice_elems. unfold d'.
    by destruct (load_slice h (userdetails v)) as [[|d ds]|]. }
  split; [|done].
  rewrite <- load_slice_elems. unfold d'.
  by destruct (load_slice h (userdetails v)) as [[|d ds]|].
Qed.

(** X6. Serialising again what was deserialised from the JSON form of [v]
    gives that JSON form back: the strings the encoder writes are valid
    UTF-8, so the one loss of the round trip happens only once. *)
Theorem MarshalJSON_roundtrip_stable (h : heap) (v e : CError) :
  is_uint16 (code v) →
  ∃ h' e',
    UnmarshalJSON h e (MarshalJSON h v) = (h', inr e')
    ∧ MarshalJSON h' e' = MarshalJSON h v
    ∧ ValidString (msg e') = true
    ∧ Forall (λ d, ValidString d = true) (elems h' (userdetails e')).
Proof.
  intros Hcode.
  destruct (UnmarshalJSON_MarshalJSON_fields h v e Hcode)
    as (h' & e' & Hrun & Hc & Hm & Hu & _).
  exists h', e'. split; [exact Hrun|].
  split; [|split].
  - rewrite !MarshalJSON_shape, Hc, Hm, Hu, encoded_string_idem.
    destruct (elems h (userdetails v)) as [|d ds]; [done|].
    assert (Hl : JString ∘ encoded_string <$> (encoded_string <$> d :: ds)
                 = JString ∘ encoded_string <$> d :: ds).
    { rewrite <- list_fmap_compose. apply list_fmap_ext. intros _ x _.
      simpl. by rewrite encoded_string_idem. }
    remember (encoded_string <$> d :: ds) as l eqn:Heql.
    destruct l as [|s l']; [by rewrite fmap_cons in Heql|].
    by rewrite Hl.
  - rewrite Hm. apply encoded_string_is_valid.
  - rewrite Hu. apply Forall_fmap, Forall_true. intros d.
    apply encoded_string_is_valid.
Qed.

Lemma MarshalJSON_roundtrip_stable_witness :
  let v := (New errorCounter_init 400 (String "255"%char "abc")).2 in
  is_uint16 (code v)
  ∧ ∃ h' e',
      UnmarshalJSON ∅ CError_zero (MarshalJSON ∅ v) = (h', inr e')
      ∧ MarshalJSON h' e' = MarshalJSON ∅ v.
Proof.
  intros v.
  assert (Hc : is_uint16 (code v)) by (vm_compute; split; discriminate).
  split; [exact Hc|].
  destruct (MarshalJSON_roundtrip_stable ∅ v CError_zero Hc)
    as (h' & e' & Hrun & Hsame & _).
  exists h', e'. split; [exact Hrun | exact Hsame].
Defined.

(** ** Deserialisation: members and fields *)

Lemma decode_members_known (members : list (string * json)) :
  ∀ tmp,
    decode_members tmp (filter (λ kv, is_Some (field_of_key kv.1)) members)
    = decode_members tmp members.
Proof.
  induction members as [|kv rest IH]; intros tmp; [done|].
  rewrite filter_cons. destruct (decide (is_Some (field_of_key kv.1))) as [|Hno].
  - cbn [decode_members]. destruct (decode_member tmp kv); [apply IH | done].
  - rewrite IH. cbn [decode_members]. unfold decode_member.
    destruct (field_of_key kv.1); [|done]. exfalso. apply Hno. eauto.
Qed.

(** X7. Members whose name matches none of the three fields are ignored:
    [UnmarshalJSON] behaves on a record as on the record without them. *)
Theorem UnmarshalJSON_ignores_unknown (h : heap) (e : CError)
    (members : list (string * json)) :
  UnmarshalJSON h e (JSONText (JObject members))
  = UnmarshalJSON h e
      (JSONText
         (JObject (filter (λ kv, is_Some (field_of_key kv.1)) members))).
Proof.
  unfold UnmarshalJSON, json_Unmarshal.
  by rewrite decode_members_known.
Qed.

(** X8. A field that the record does not name is reset, not kept: after a
    successful [UnmarshalJSON] the message is empty when no member names
    [message] (and [UserMessage] then gives its fallback text), the code is
    0 when none names [code], and the user details are nil when none names
    [details], whatever the receiver held. *)
Theorem UnmarshalJSON_missing_fields (h h' : heap) (e e' : CError)
    (data : bytes) :
  UnmarshalJSON h e data = (h', inr e') →
  (absent FieldMessage data →
   msg e' = EmptyString ∧ UserMessage e' = "unknown error occurred"%string)
  ∧ (absent FieldCode data → code e' = 0)
  ∧ (absent FieldDetails data → userdetails e' = nil_slice ∧ h' = h).
Proof.
  intros Hrun.
  assert (Hdec : ∃ tmp,
    json_Unmarshal data errorJSON.zero = inr tmp
    ∧ (absent FieldMessage data → errorJSON.Message tmp = EmptyString)
    ∧ (absent FieldCode data → errorJSON.Code tmp = 0)
    ∧ (absent FieldDetails data → errorJSON.Details tmp = None)).
  { unfold UnmarshalJSON in Hrun.
    destruct (json_Unmarshal data errorJSON.zero) as [err|tmp] eqn:Hj.
    { by injection Hrun. }
    exists tmp. split; [done|].
    destruct data as [|[| | | | |members]]; simpl in Hj; try discriminate.
    - injection Hj as <-. done.
    - destruct (decode_members errorJSON.zero members) as [tmp'|] eqn:Hm;
        [|discriminate].
      injection Hj as <-. simpl.
      split; [|split]; intros Habs.
      + apply (decode_members_other FieldMessage members Habs _ _ Hm).
      + apply (decode_members_other FieldCode members Habs _ _ Hm).
      + apply (decode_members_other FieldDetails members Habs _ _ Hm). }
  destruct Hdec as (tmp & Hj & Hm & Hc & Hd).
  rewrite (UnmarshalJSON_ok _ _ _ _ Hj) in Hrun.
  injection Hrun as <- <-. cbn [msg code userdetails].
  split; [|split].
  - intros Habs. rewrite (Hm Habs). split; [done|].
    unfold UserMessage. cbn [msg].
    by destruct (decide (EmptyString ≠ EmptyString)).
  - intros Habs. by rewrite (Hc Habs).
  - intros Habs. by rewrite (Hd Habs).
Qed.

Lemma UnmarshalJSON_missing_fields_witness :
  let e := (New errorCounter_init 404 "user not found").2 in
  let data := JSONText (JObject [("code"%string, JNumber (IntLit false 410))]) in
  UnmarshalJSON ∅ e data
  = (∅, inr (mkCError None nil_slice nil_slice EmptyString 1 410))
  ∧ absent FieldMessage data
  ∧ UserMessage (mkCError None nil_slice nil_slice EmptyString 1 410)
    = "unknown error occurred"%string.
Proof.
  intros e data.
  assert (Hrun : UnmarshalJSON ∅ e data
                 = (∅, inr (mkCError None nil_slice nil_slice EmptyString 1 410)))
    by reflexivity.
  assert (Habs : absent FieldMessage data).
  { intros kv Hin. apply elem_of_cons in Hin as [-> | Hin]; [done|].
    by apply elem_of_nil in Hin. }
  split; [exact Hrun|]. split; [exact Habs|].
  destruct (UnmarshalJSON_missing_fields _ _ _ _ _ Hrun) as [Hm _].
  exact (proj2 (Hm Habs)).
Defined.

(** ** Deserialisation: storage and identity *)

Lemma store_slice_frame (h : heap) (v : option (list string)) :
  slice_ok (store_slice h v).1 (store_slice h v).2
  ∧ (∀ s, slice_ok h s →
       elems (store_slice h v).1 s = elems h s
       ∧ slice_ok (store_slice h v).1 s
       ∧ ¬ shares_storage (store_slice h v).2 s).
Proof.
  destruct v as [l|]; simpl.
  - split; [apply slice_ok_fresh_slice|]. intros s Hs. split; [|split].
    + apply elems_insert_ne. by apply slice_ok_not_fresh.
    + by apply slice_ok_insert_fresh.
    + apply (fresh_not_shared h _ _ (fresh (dom h))); [done| |done].
      apply is_fresh.
  - split; [done|]. intros s Hs. split; [done|]. split; [done|].
    by intros (l & [=] & _).
Qed.

(** X9. [UnmarshalJSON] writes to no storage that existed before: every
    sequence valid before the call reads the same afterwards. On success the
    result is well-formed, keeps the receiver's identity, technical details
    and cause, and its user details share storage with nothing that existed;
    on failure the heap is as before. *)
Theorem UnmarshalJSON_frame (h : heap) (e : CError) (data : bytes) :
  CError_ok h e →
  let h' := (UnmarshalJSON h e data).1 in
  (∀ s, slice_ok h s → elems h' s = elems h s ∧ slice_ok h' s)
  ∧ match (UnmarshalJSON h e data).2 with
    | inr e' =>
        CError_ok h' e'
        ∧ id e' = id e ∧ details e' = details e ∧ wrapped e' = wrapped e
        ∧ elems h' (details e') = elems h (details e)
        ∧ ∀ s, slice_ok h s → ¬ shares_storage (userdetails e') s
    | inl _ => h' = h
    end.
Proof.
  intros [Hd Hu]. unfold UnmarshalJSON.
  destruct (json_Unmarshal data errorJSON.zero) as [err|tmp]; [done|].
  destruct (store_slice_frame h (errorJSON.Details tmp)) as [Hnew Hframe].
  destruct (store_slice h (errorJSON.Details tmp)) as [h1 ud].
  cbn [fst snd] in *. split.
  { intros s Hs. destruct (Hframe s Hs) as (? & ? & _). done. }
  cbn [id details wrapped userdetails]. unfold CError_ok. cbn [details userdetails].
  destruct (Hframe _ Hd) as (Hed & Hokd & _).
  repeat split; try done.
  intros s Hs. by apply Hframe.
Qed.

Lemma UnmarshalJSON_frame_witness :
  let e0 := (New errorCounter_init 404 "user not found").2 in
  let s := WithDetail ∅ e0 "user_id: 123" in
  let data :=
    JSONText (JObject [("details"%string, JArray [JString "Try again"])]) in
  CError_ok s.1 s.2
  ∧ elems (UnmarshalJSON s.1 s.2 data).1 (details s.2) = ["user_id: 123"%string].
Proof.
  intros e0 s data.
  assert (Hok : CError_ok s.1 s.2).
  { split.
    - exists ["user_id: 123"%string]. vm_compute. repeat split; lia.
    - vm_compute. done. }
  split; [exact Hok|].
  destruct (UnmarshalJSON_frame s.1 s.2 data Hok) as [Hframe _].
  exact (proj1 (Hframe (details s.2) (proj1 Hok))).
Defined.

(** ** The predefined errors *)

Lemma package_init_eq :
  package_init
  = imap (λ i v, mkCError None nil_slice nil_slice v.2.2 (Z.of_nat i + 1) v.2.1)
         predefined.
Proof. vm_compute. reflexivity. Qed.

Lemma package_init_lookup (i : nat) (t : CError) :
  package_init !! i = Some t →
  ∃ v, predefined !! i = Some v
       ∧ t = mkCError None nil_slice nil_slice v.2.2 (Z.of_nat i + 1) v.2.1.
Proof.
  rewrite package_init_eq, list_lookup_imap.
  destruct (predefined !! i) as [v|]; [|done].
  intros [= <-]. by exists v.
Qed.

(** X10. Package initialisation gives the predefined errors the identities
    1, 2, ... in declaration order, with the code and message written in
    the catalog and no details or cause; two of them match under [Is] only
    if they are the same variable, however alike their codes. *)
Theorem predefined_identities (i j : nat) (a b : CError) :
  package_init !! i = Some a →
  package_init !! j = Some b →
  id a = Z.of_nat i + 1
  ∧ (∃ name, predefined !! i = Some (name, (code a, msg a)))
  ∧ wrapped a = None ∧ details a = nil_slice ∧ userdetails a = nil_slice
  ∧ (Is a (Some (PtrCError b)) = true ↔ i = j).
Proof.
  intros Ha Hb.
  destruct (package_init_lookup i a Ha) as ([name [c m]] & Hi & ->).
  destruct (package_init_lookup j b Hb) as (vj & Hj & ->).
  cbn [id code msg wrapped details userdetails fst snd].
  split; [done|]. split; [by exists name|]. do 3 (split; [done|]).
  rewrite Is_identity, bool_decide_eq_true. cbn [id]. lia.
Qed.

Lemma predefined_identities_witness :
  ∃ a b,
    package_init !! 18%nat = Some a ∧ package_init !! 19%nat = Some b
    ∧ msg a = "resource not found"%string ∧ msg b = "user not found"%string
    ∧ code a = code b
    ∧ Is a (Some (PtrCError b)) ≠ true.
Proof.
  eexists _, _. split; [reflexivity|]. split; [reflexivity|].
  split; [reflexivity|]. split; [reflexivity|]. split; [reflexivity|].
  intros His.
  destruct (predefined_identities 18 19 _ _ eq_refl eq_refl)
    as (_ & _ & _ & _ & _ & Hiff).
  apply Hiff in His. discriminate.
Defined.

Lemma package_init_wellformed :
  Forall (λ t : CError,
            id t ≠ 0 ∧ (0 <= code t ∧ code t <= 65535)
            ∧ ValidString (msg t) = true ∧ msg t ≠ EmptyString
            ∧ userdetails t = nil_slice)
         package_init.
Proof.
  rewrite package_init_eq. unfold predefined. cbn [imap].
  repeat (apply Forall_cons_2;
          [split; [done|]; split; [done|];
           split; [vm_compute; reflexivity|]; split; done|]).
  apply Forall_nil_2.
Qed.

(** X11. Values deserialised into zero-valued receivers all carry identity
    0: any two of them match under [Is], whatever their contents, and none
    of them matches a predefined error, in either direction. *)
Theorem deserialized_identity (h1 h2 h1' h2' : heap) (d1 d2 : bytes)
    (a b : CError) :
  UnmarshalJSON h1 CError_zero d1 = (h1', inr a) →
  UnmarshalJSON h2 CError_zero d2 = (h2', inr b) →
  id a = 0
  ∧ Is a (Some (PtrCError b)) = true
  ∧ ∀ t, t ∈ package_init →
      Is t (Some (PtrCError a)) = false ∧ Is a (Some (PtrCError t)) = false.
Proof.
  assert (Hzero : ∀ h h' d (x : CError),
            UnmarshalJSON h CError_zero d = (h', inr x) → id x = 0).
  { intros h h' d x. unfold UnmarshalJSON.
    destruct (json_Unmarshal d errorJSON.zero) as [err|tmp]; [by intros [=]|].
    destruct (store_slice h (errorJSON.Details tmp)). by intros [= _ <-]. }
  intros Ha%Hzero Hb%Hzero. split; [done|].
  rewrite !Is_identity. split; [rewrite bool_decide_eq_true; congruence|].
  intros t Ht.
  pose proof (proj1 (Forall_forall _ _) package_init_wellformed t Ht)
    as [Hid _].
  rewrite !Is_identity, !bool_decide_eq_false. split; congruence.
Qed.

Lemma deserialized_identity_witness :
  let d1 := JSONText (JObject [("message"%string, JString "not found")]) in
  let d2 := JSONText (JObject [("code"%string, JNumber (IntLit false 500))]) in
  ∃ a b,
    UnmarshalJSON ∅ CError_zero d1 = (∅, inr a)
    ∧ UnmarshalJSON ∅ CError_zero d2 = (∅, inr b)
    ∧ msg a ≠ msg b ∧ code a ≠ code b
    ∧ Is a (Some (PtrCError b)) = true.
Proof.
  intros d1 d2. eexists _, _.
  split; [reflexivity|]. split; [reflexivity|].
  split; [discriminate|]. split; [discriminate|].
  eapply (deserialized_identity ∅ ∅ ∅ ∅ d1 d2); reflexivity.
Defined.

(** X12. Every predefined error has a code within uint16 and a non-empty
    message in valid UTF-8: its JSON form has the two members [message] and
    [code] and no [details], deserialising it gives exactly its message and
    code back with nil user details, and [UserMessage] is its message. *)
Theorem predefined_roundtrip (t : CError) (h : heap) (e : CError) :
  t ∈ package_init →
  MarshalJSON h t
  = JSONText
      (JObject [("message"%string, JString (msg t));
                ("code"%string, JNumber (IntLit false (Z.to_N (code t))))])
  ∧ (∃ h' e',
       UnmarshalJSON h e (MarshalJSON h t) = (h', inr e')
       ∧ msg e' = msg t ∧ code e' = code t ∧ userdetails e' = nil_slice)
  ∧ UserMessage t = msg t.
Proof.
  intros Ht.
  pose proof (proj1 (Forall_forall _ _) package_init_wellformed t Ht)
    as (_ & Hcode & Hvalid & Hmsg & Hud).
  assert (Helems : elems h (userdetails t) = []) by (by rewrite Hud).
  split; [|split].
  - rewrite MarshalJSON_shape, Helems, (encoded_string_valid _ Hvalid). done.
  - destruct (UnmarshalJSON_MarshalJSON_fields h t e Hcode)
      as (h' & e' & Hrun & Hc & Hm & _ & Hnil & _).
    exists h', e'. split; [exact Hrun|].
    rewrite Hm, (encoded_string_valid _ Hvalid). auto.
  - unfold UserMessage. by destruct (decide (msg t ≠ EmptyString)).
Qed.

Lemma predefined_roundtrip_witness :
  ∃ t,
    package_init !! 19%nat = Some t
    ∧ t ∈ package_init
    ∧ MarshalJSON ∅ t
      = JSONText
          (JObject [("message"%string, JString "user not found");
                    ("code"%string, JNumber (IntLit false 404))])
    ∧ UserMessage t = "user not found"%string.
Proof.
  eexists. split; [reflexivity|].
  match goal with |- ?t ∈ _ ∧ _ =>
    assert (Hin : t ∈ package_init)
      by (apply list_elem_of_lookup; exists 19%nat; reflexivity)
  end.
  split; [exact Hin|].
  destruct (predefined_roundtrip _ ∅ CError_zero Hin) as (Hj & _ & Hu).
  split; [exact Hj | exact Hu].
Defined.

(** ** The chain in the diagnostic record *)

Lemma expandAllWrapped_UnwrapAll (e' e : CError) :
  expandAllWrapped e' (wrapped e)
  = (λ link, list_to_map (link_fields link)) <$> UnwrapAll e.
Proof.
  rewrite UnwrapAll_cause_chain. unfold expandAllWrapped.
  destruct (wrapped e) as [cause|]; [|done].
  apply expandAllWrapped_loop_chain.
Qed.

Lemma link_fields_message (link : error) :
  (list_to_map (link_fields link) : gmap string link_value) !! "message"%string
  = Some (VString match link with
                  | PtrCError c => msg c
                  | Foreign text _ => text
                  end).
Proof.
  destruct link as [c|text u]; simpl; [|reflexivity].
  repeat destruct (decide _); reflexivity.
Qed.

(** X13. The [wrapped] entry of [FullData] is absent exactly when
    [UnwrapAll] is empty, and otherwise holds one record per element of
    [UnwrapAll], in the same order; the record at each position carries,
    under [message], the message of the CError link or the text of the
    foreign link at that position. The receiver of [expandAllWrapped] plays
    no part. *)
Theorem FullData_wrapped_UnwrapAll (e : CError) :
  FullData e !! "wrapped"%string
  = match UnwrapAll e with
    | [] => None
    | links =>
        Some (Chain ((λ link, list_to_map (link_fields link)) <$> links))
    end
  ∧ (∀ e', length (expandAllWrapped e' (wrapped e)) = length (UnwrapAll e))
  ∧ ∀ e' i link,
      UnwrapAll e !! i = Some link →
      ∃ record,
        expandAllWrapped e' (wrapped e) !! i = Some record
        ∧ record !! "message"%string
          = Some (VString match link with
                          | PtrCError c => msg c
                          | Foreign text _ => text
                          end).
Proof.
  split; [|split].
  - unfold FullData. rewrite (expandAllWrapped_UnwrapAll e e).
    rewrite UnwrapAll_cause_chain.
    destruct (wrapped e) as [cause|].
    + pose proof (cause_chain_nonempty cause) as Hne.
      destruct (decide (0 < length _)%nat) as [_|Hlen];
        [|rewrite length_fmap in Hlen; lia].
      destruct (cause_chain cause) as [|l ls] eqn:Hc; [simpl in Hne; lia|].
      apply lookup_insert_eq.
    + repeat destruct (decide _); reflexivity.
  - intros e'. by rewrite expandAllWrapped_UnwrapAll, length_fmap.
  - intros e' i link Hi. rewrite expandAllWrapped_UnwrapAll, list_lookup_fmap, Hi.
    eexists. split; [reflexivity|]. apply link_fields_message.
Qed.

(** ** Wrapping and unwrapping *)

Lemma cause_chain_last (link : error) :
  ∀ l, last (cause_chain link) = Some l →
       match l with
       | PtrCError c => wrapped c = None
       | Foreign _ unwrap => unwrap = None ∨ unwrap = Some None
       end.
Proof.
  induction link as [c IH | text next IH | text | text] using error_chain_ind;
    intros l; cbn [cause_chain].
  - destruct (wrapped c) as [next|] eqn:Hw.
    + pose proof (cause_chain_nonempty next) as Hne.
      destruct (cause_chain next) as [|x xs] eqn:Hc; [simpl in Hne; lia|].
      rewrite last_cons_cons, <- Hc. by apply IH.
    + by intros [= <-].
  - pose proof (cause_chain_nonempty next) as Hne.
    destruct (cause_chain next) as [|x xs] eqn:Hc; [simpl in Hne; lia|].
    rewrite last_cons_cons. apply IH.
  - intros [= <-]. by right.
  - intros [= <-]. by left.
Qed.

(** X14. [UnwrapAll] starts at the direct cause ([Unwrap]) and ends at a
    link that has no further cause; wrapping a CError, with [Wrap] or with
    [WithWrap], puts that CError in front of its own chain. *)
Theorem UnwrapAll_wrapping :
  (∀ e : CError, head (UnwrapAll e) = Unwrap e)
  ∧ (∀ (e : CError) l,
       last (UnwrapAll e) = Some l →
       match l with
       | PtrCError c => wrapped c = None
       | Foreign _ unwrap => unwrap = None ∨ unwrap = Some None
       end)
  ∧ (∀ counter (cause : CError) c m,
       UnwrapAll (Wrap counter (Some (PtrCError cause)) c m).2
       = PtrCError cause :: UnwrapAll cause)
  ∧ (∀ (e cause : CError),
       UnwrapAll (WithWrap e (Some (PtrCError cause)))
       = PtrCError cause :: UnwrapAll cause
       ∧ UnwrapAll (WithWrap e None) = []).
Proof.
  assert (Hcons : ∀ (e cause : CError),
            wrapped e = Some (PtrCError cause) →
            UnwrapAll e = PtrCError cause :: UnwrapAll cause).
  { intros e cause Hw. rewrite !UnwrapAll_cause_chain, Hw. reflexivity. }
  split; [|split; [|split]].
  - intros e. rewrite UnwrapAll_cause_chain. unfold Unwrap.
    destruct (wrapped e) as [[c|text u]|]; reflexivity.
  - intros e l. rewrite UnwrapAll_cause_chain.
    destruct (wrapped e) as [cause|]; [apply cause_chain_last | done].
  - intros counter cause c m. by apply Hcons.
  - intros e cause. split; [by apply Hcons | done].
Qed.

(** ** Codes *)

(** X15. The code read by [Code] is recognised by [IsCode], and after
    [WithCode c], with [c] within uint16, [IsCode] answers true for [c] and
    false for every other argument. *)
Theorem IsCode_Code (e : CError) (c : Z) :
  is_uint16 (code e) →
  is_uint16 c →
  IsCode e (Code e) = true
  ∧ Code (WithCode e c) = c
  ∧ IsCode (WithCode e c) c = true
  ∧ ∀ c', c' ≠ c → IsCode (WithCode e c) c' = false.
Proof.
  unfold is_uint16, IsCode, Code, to_uint16. intros He Hc. cbn [code WithCode].
  assert (Hin : ∀ z, 0 <= z <= 65535 →
            bool_decide (z < 0) || bool_decide (z > 65535) = false).
  { intros z Hz. rewrite orb_false_iff, !bool_decide_eq_false. lia. }
  split; [|split; [|split]].
  - rewrite (Hin _ He), bool_decide_eq_true, Z.mod_small; lia.
  - done.
  - rewrite (Hin _ Hc), bool_decide_eq_true, Z.mod_small; lia.
  - intros c' Hne.
    destruct (bool_decide (c' < 0) || bool_decide (c' > 65535)) eqn:Hout;
      [done|].
    apply orb_false_iff in Hout as [Hlo Hhi].
    apply bool_decide_eq_false in Hlo, Hhi.
    rewrite bool_decide_eq_false, Z.mod_small; lia.
Qed.

Lemma IsCode_Code_witness :
  let e := (New errorCounter_init 404 "user not found").2 in
  is_uint16 (code e) ∧ is_uint16 410
  ∧ IsCode e 404 = true
  ∧ IsCode (WithCode e 410) 410 = true
  ∧ IsCode (WithCode e 410) 404 = false.
Proof.
  intros e.
  assert (He : is_uint16 (code e)) by (unfold is_uint16; simpl; lia).
  assert (Hc : is_uint16 410) by (unfold is_uint16; lia).
  split; [exact He|]. split; [exact Hc|].
  destruct (IsCode_Code e 410 He Hc) as (H1 & _ & H2 & H3).
  split; [exact H1|]. split; [exact H2|]. apply H3. lia.
Defined.

(** ** Nil and empty details *)

Lemma derive_nil_or_nonempty (h : heap) (e : CError) (call : derivation) :
  CError_ok h e →
  nil_or_nonempty (details e) →
  nil_or_nonempty (details (derive h e call).2).
Proof.
  intros [Hd Hu] Hinv. destruct call as [c|m|w|d|d]; try exact Hinv.
  - cbn [derive]. rewrite (WithDetail_eq h e d Hd). by split.
  - cbn [derive]. by rewrite (WithUserDetail_eq h e d Hu).
Qed.

Lemma derive_all_nil_or_nonempty (calls : list derivation) :
  ∀ h e,
    CError_ok h e →
    nil_or_nonempty (details e) →
    nil_or_nonempty (details (derive_all h e calls).2).
Proof.
  induction calls as [|call rest IH]; intros h e Hok Hinv; [done|].
  cbn [derive_all].
  pose proof (derive_nil_or_nonempty h e call Hok Hinv) as Hinv1.
  destruct (derive_step h e call Hok) as [Hok1 _].
  destruct (derive h e call) as [h1 e1]. by apply IH.
Qed.

Lemma FullData_details (e : CError) :
  FullData e !! "details"%string
  = if decide (0 < len (details e))%nat
    then Some (Plain (VStrings (details e))) else None.
Proof.
  unfold FullData.
  destruct (wrapped e) as [cause|];
    repeat destruct (decide _); reflexivity.
Qed.

(** X16. A value built from [New] or [Wrap] by any chain of derivations
    has technical details that are nil or non-empty, never an empty non-nil
    slice. So the nil test of [Error] and the length test of [FullData]
    agree on it: the details block of [Error] and the [details] entry of
    [FullData] are both present exactly when there are technical details. *)
Theorem details_nil_or_nonempty (calls : list derivation) (h : heap)
    (e : CError) :
  CError_ok h e →
  nil_or_nonempty (details e) →
  let h' := (derive_all h e calls).1 in
  let b := (derive_all h e calls).2 in
  nil_or_nonempty (details b)
  ∧ (ptr (details b) = None ↔ elems h' (details b) = [])
  ∧ (FullData b !! "details"%string = None ↔ elems h' (details b) = [])
  ∧ own_text h' b
    = ("message: " ++ msg b ++ ", code: " ++ format_uint (code b)
       ++ match elems h' (details b) with
          | [] => ""
          | ds => ", details: [" ++ String.concat ", " ds ++ "]"
          end)%string.
Proof.
  intros Hok Hinv h' b.
  pose proof (derive_all_nil_or_nonempty calls h e Hok Hinv) as Hb.
  destruct (derive_all_fields calls h e Hok) as ([Hokd _] & _).
  fold h' b in Hb, Hokd.
  pose proof (elems_length h' (details b) Hokd) as Hlen.
  assert (Hb' : ptr (details b) = None ↔ len (details b) = 0%nat) by exact Hb.
  assert (Hempty : ptr (details b) = None ↔ elems h' (details b) = []).
  { rewrite Hb', <- Hlen. split; [apply nil_length_inv | by intros ->]. }
  split; [exact Hb|]. split; [exact Hempty|]. split.
  - rewrite FullData_details, <- Hempty, Hb'.
    destruct (decide (0 < len (details b))%nat); split; try done; lia.
  - unfold own_text.
    destruct (ptr (details b)) as [l|] eqn:Hp.
    + destruct (elems h' (details b)) as [|d ds] eqn:He; [|done].
      discriminate (proj2 Hempty eq_refl).
    + by rewrite (proj1 Hempty eq_refl).
Qed.

Lemma details_nil_or_nonempty_witness :
  let e := (Wrap errorCounter_init (Some (Foreign "EOF" None)) 500 "read failed").2 in
  let calls := [CallWithUserDetail "Try again"; CallWithCode 503] in
  let r := derive_all ∅ e calls in
  CError_ok ∅ e ∧ nil_or_nonempty (details e)
  ∧ FullData r.2 !! "details"%string = None
  ∧ own_text r.1 r.2 = "message: read failed, code: 503"%string.
Proof.
  intros e calls r.
  assert (Hok : CError_ok ∅ e) by (by split).
  assert (Hinv : nil_or_nonempty (details e)) by (by split).
  split; [exact Hok|]. split; [exact Hinv|].
  destruct (details_nil_or_nonempty calls ∅ e Hok Hinv)
    as (_ & _ & Hfull & Hown).
  split; [apply Hfull; reflexivity | exact Hown].
Defined.

(** ** Rendering of existing values *)

Lemma error_Error_frame (h h' : heap) :
  (∀ s, slice_ok h s → elems h' s = elems h s ∧ slice_ok h' s) →
  ∀ err,
    rendering_ok h err →
    error_Error h' err = error_Error h err ∧ rendering_ok h' err.
Proof.
  intros Hframe err.
  induction err as [c IH | text next IH | text | text] using error_chain_ind;
    try done.
  cbn [rendering_ok error_Error]. intros [Hd Hrest].
  destruct (Hframe _ Hd) as [He Hd'].
  assert (Hown : ∀ cause, Error_body h' c cause = Error_body h c cause).
  { intros cause. unfold Error_body. by rewrite He. }
  rewrite Hown. destruct (wrapped c) as [next|] eqn:Hw.
  - destruct (IH next eq_refl Hrest) as [-> Hok']. done.
  - done.
Qed.

(** X17. Deriving from a value never changes how an existing error renders:
    for every error whose rendered details are valid in the heap before the
    call, [Error] gives the same text in the heap after one derivation, and
    after any sequence of them. *)
Theorem Error_frame (h : heap) (e : CError) (err : error) :
  CError_ok h e →
  rendering_ok h err →
  (∀ call, error_Error (derive h e call).1 err = error_Error h err)
  ∧ (∀ calls, error_Error (derive_all h e calls).1 err = error_Error h err).
Proof.
  intros Hok Herr. split.
  - intros call. destruct (derive_step h e call Hok) as (_ & Hframe & _).
    by apply (error_Error_frame h _ Hframe).
  - intros calls.
    destruct (derive_all_fields calls h e Hok) as (_ & Hframe & _).
    by apply (error_Error_frame h _ Hframe).
Qed.

Lemma Error_frame_witness :
  let e0 := (New errorCounter_init 404 "user not found").2 in
  let s := WithDetail ∅ e0 "user_id: 123" in
  let s' := WithDetail s.1 s.2 "retries: 3" in
  CError_ok s.1 s.2 ∧ rendering_ok s.1 (PtrCError s.2)
  ∧ error_Error s'.1 (PtrCError s.2)
    = "message: user not found, code: 404, details: [user_id: 123]"%string.
Proof.
  intros e0 s s'.
  assert (Hd : slice_ok s.1 (details s.2)).
  { exists ["user_id: 123"%string]. vm_compute. repeat split; lia. }
  assert (Hok : CError_ok s.1 s.2) by (split; [exact Hd | by vm_compute]).
  assert (Hr : rendering_ok s.1 (PtrCError s.2)) by (split; [exact Hd | done]).
  split; [exact Hok|]. split; [exact Hr|].
  destruct (Error_frame s.1 s.2 (PtrCError s.2) Hok Hr) as [Hcall _].
  exact (Hcall (CallWithDetail "retries: 3")).
Defined.
